(** * Singleton.py: lazy, lock-guarded, exactly-once initialisation

    A shallow embedding of [Singleton.py] and the verification of its
    singleton cells.

    The Python code is written once, as a program over the primitive
    actions it performs on shared memory (reads and writes of class
    attributes, dictionary accesses, lock operations, object allocation).
    That program is given two semantics:

    - [run], the execution of one caller on its own (a sequence of calls
      made one after the other);
    - [step], the interleaving of several callers, one primitive action at
      a time, where a caller that asks for a held lock cannot move.

    Both semantics use the same interpretation [exec] of the primitive
    actions. *)

From stdpp Require Import gmap strings list pretty.
From Stdlib Require Import ZArith Lia.

(** ** Python values and the heap *)

(** Object and list references are indices into the heap: the index an
    allocation returns is the number of allocations made before it.  Two
    handles are identical ([is]) exactly when they are the same
    reference. *)
Inductive value :=
| VNone
| VBool (b : bool)
| VInt (n : Z)
| VStr (s : string)
| VObj (a : nat)
| VList (l : nat).

#[global] Instance value_eq_dec : EqDecision value.
Proof. solve_decision. Defined.

Inductive exn :=
| TypeError (callee : string)
| AttributeError (attr : string)
| KeyError (key : string)
| Exception (msg : string).

#[global] Instance exn_eq_dec : EqDecision exn.
Proof. solve_decision. Defined.

(** An instance: its class and its [__dict__]. *)
Record object := Object { obj_class : string; obj_attrs : gmap string value }.

Record heap := Heap { objects : list object; lists : list (list value) }.

(** The local variables of one call of [singleton]: [instances] and
    [lock]. The dictionary is keyed by the class; a class is identified by
    its name. *)
Record env := Env { instances : gmap string value; lock : bool }.

(** The shared memory of the module: the heap, the three class attributes
    of [DatabaseConnection], and one environment per decorated class.  A
    lock is [true] while it is held. *)
Record state := State {
  st_heap : heap;
  _instance : value;
  _lock : bool;
  _initialized : bool;
  envs : list env
}.

Definition with_heap (s : state) (h : heap) : state :=
  State h (_instance s) (_lock s) (_initialized s) (envs s).
Definition with_instance (s : state) (v : value) : state :=
  State (st_heap s) v (_lock s) (_initialized s) (envs s).
Definition with_lock (s : state) (b : bool) : state :=
  State (st_heap s) (_instance s) b (_initialized s) (envs s).
Definition with_initialized (s : state) (b : bool) : state :=
  State (st_heap s) (_instance s) (_lock s) b (envs s).
Definition with_envs (s : state) (es : list env) : state :=
  State (st_heap s) (_instance s) (_lock s) (_initialized s) es.

Definition set_attr (f : string) (v : value) (o : object) : object :=
  Object (obj_class o) (<[f := v]> (obj_attrs o)).
Definition set_item (c : string) (v : value) (e : env) : env :=
  Env (<[c := v]> (instances e)) (lock e).
Definition set_lock (b : bool) (e : env) : env := Env (instances e) b.

(** The state of the module once its class and function definitions have
    been executed, before any decoration. *)
Definition empty_heap : heap := Heap [] [].
Definition module_state : state := State empty_heap VNone false false [].

(** ** Primitive actions *)

(** Actions on the heap: all a payload constructor is given. *)
Inductive hop : Type -> Type :=
| New (c : string) : hop nat                      (* object.__new__(c) *)
| NewList : hop nat                               (* [] *)
| ClassOf (a : nat) : hop (option string)         (* type(a) *)
| GetAttr (a : nat) (f : string) : hop (option value)
| SetAttr (a : nat) (f : string) (v : value) : hop unit
| Append (l : nat) (v : value) : hop unit.

Inductive lock_id := ClassLock | EnvLock (k : nat).

#[global] Instance lock_id_eq_dec : EqDecision lock_id.
Proof. solve_decision. Defined.

(** Actions on the whole shared memory. *)
Inductive op : Type -> Type :=
| OnHeap {X : Type} (h : hop X) : op X
| LoadInstance : op value                         (* cls._instance *)
| StoreInstance (v : value) : op unit             (* cls._instance = v *)
| LoadInitialized : op bool
| StoreInitialized (b : bool) : op unit
| Acquire (l : lock_id) : op unit
| Release (l : lock_id) : op unit
| NewEnv : op nat                                 (* instances = {}; lock = Lock() *)
| Contains (k : nat) (c : string) : op bool       (* c in instances *)
| GetItem (k : nat) (c : string) : op (option value)
| SetItem (k : nat) (c : string) (v : value) : op unit.

(** References come from [New] and [NewList] alone, so that they are in
    range; at a reference out of range a read finds nothing and a write
    changes nothing. Nothing is ever removed from the heap. *)
Definition exec_heap {X : Type} (o : hop X) (h : heap) : X * heap :=
  match o in hop X return X * heap with
  | New c => (length (objects h), Heap (objects h ++ [Object c ∅]) (lists h))
  | NewList => (length (lists h), Heap (objects h) (lists h ++ [[]]))
  | ClassOf a => (obj_class <$> objects h !! a, h)
  | GetAttr a f => (objects h !! a ≫= fun o => obj_attrs o !! f, h)
  | SetAttr a f v => (tt, Heap (alter (set_attr f v) a (objects h)) (lists h))
  | Append l v => (tt, Heap (objects h) (alter (fun xs => xs ++ [v]) l (lists h)))
  end.

(** The lock of an environment that does not exist cannot be taken. *)
Definition lock_held (l : lock_id) (s : state) : bool :=
  match l with
  | ClassLock => _lock s
  | EnvLock k => match envs s !! k with Some e => lock e | None => true end
  end.

Definition put_lock (l : lock_id) (b : bool) (s : state) : state :=
  match l with
  | ClassLock => with_lock s b
  | EnvLock k => with_envs s (alter (set_lock b) k (envs s))
  end.

(** Every action but the acquisition of a held lock can always be taken. *)
Definition enabled {X : Type} (o : op X) (s : state) : bool :=
  match o with
  | Acquire l => negb (lock_held l s)
  | _ => true
  end.

Definition exec {X : Type} (o : op X) (s : state) : X * state :=
  match o in op X return X * state with
  | OnHeap h => let '(x, h') := exec_heap h (st_heap s) in (x, with_heap s h')
  | LoadInstance => (_instance s, s)
  | StoreInstance v => (tt, with_instance s v)
  | LoadInitialized => (_initialized s, s)
  | StoreInitialized b => (tt, with_initialized s b)
  | Acquire l => (tt, put_lock l true s)
  | Release l => (tt, put_lock l false s)
  | NewEnv => (length (envs s), with_envs s (envs s ++ [Env ∅ false]))
  | Contains k c =>
      (match envs s !! k ≫= fun e => instances e !! c with
       | Some _ => true
       | None => false
       end, s)
  | GetItem k c => (envs s !! k ≫= fun e => instances e !! c, s)
  | SetItem k c v => (tt, with_envs s (alter (set_item c v) k (envs s)))
  end.

(** ** Programs *)

Inductive prog (E : Type -> Type) (A : Type) : Type :=
| Ret (a : A)
| Throw (e : exn)
| Vis {X : Type} (o : E X) (k : X -> prog E A).

Arguments Ret {E A} a.
Arguments Throw {E A} e.
Arguments Vis {E A X} o k.

Fixpoint bind {E : Type -> Type} {A B : Type}
    (p : prog E A) (f : A -> prog E B) : prog E B :=
  match p with
  | Ret a => f a
  | Throw e => Throw e
  | Vis o k => Vis o (fun x => bind (k x) f)
  end.

Definition trigger {E : Type -> Type} {X : Type} (o : E X) : prog E X :=
  Vis o Ret.

(** [try: p finally: q]. *)
Fixpoint try_finally {E : Type -> Type} {A : Type}
    (p : prog E A) (q : prog E unit) : prog E A :=
  match p with
  | Ret a => bind q (fun _ => Ret a)
  | Throw e => bind q (fun _ => Throw e)
  | Vis o k => Vis o (fun x => try_finally (k x) q)
  end.

(** A heap program, as part of a program on the shared memory. *)
Fixpoint lift {A : Type} (p : prog hop A) : prog op A :=
  match p with
  | Ret a => Ret a
  | Throw e => Throw e
  | Vis o k => Vis (OnHeap o) (fun x => lift (k x))
  end.

Declare Scope prog_scope.
Delimit Scope prog_scope with prog.
Bind Scope prog_scope with prog.
Notation "x <- p ;; q" := (bind p (fun x => q))
  (at level 100, p at next level, right associativity) : prog_scope.
Notation "p ;; q" := (bind p (fun _ => q))
  (at level 100, right associativity) : prog_scope.

(** [with lock: body]: the lock is released however the body ends. *)
Definition with_statement {A : Type} (l : lock_id) (body : prog op A) : prog op A :=
  (trigger (Acquire l) ;; try_finally body (trigger (Release l)))%prog.

(** ** One caller on its own *)

Inductive event :=
| Ev {X : Type} (o : op X).

Inductive outcome (A : Type) :=
| Returned (a : A)
| Raised (e : exn)
| Blocked.

Arguments Returned {A} a.
Arguments Raised {A} e.
Arguments Blocked {A}.

(** The outcome of a program, the memory it leaves and the actions it took,
    in order.  A caller on its own that asks for a held lock waits for
    ever. *)
Fixpoint run {A : Type} (p : prog op A) (s : state)
    : outcome A * state * list event :=
  match p with
  | Ret a => (Returned a, s, [])
  | Throw e => (Raised e, s, [])
  | Vis o k =>
      if enabled o s then
        let '(x, s') := exec o s in
        let '(r, s'', t) := run (k x) s' in
        (r, s'', Ev o :: t)
      else (Blocked, s, [])
  end.

(** A heap program on the heap alone: it takes no lock and never waits. *)
Fixpoint run_heap {A : Type} (p : prog hop A) (h : heap)
    : outcome A * heap * list event :=
  match p with
  | Ret a => (Returned a, h, [])
  | Throw e => (Raised e, h, [])
  | Vis o k =>
      let '(x, h') := exec_heap o h in
      let '(r, h'', t) := run_heap (k x) h' in
      (r, h'', Ev (OnHeap o) :: t)
  end.

(** ** Several callers *)

(** One action of a thread: the first action of its program, when it can
    be taken. A thread that asks for a held lock does not move. *)
Definition thread_step {A : Type} (p : prog op A) (s : state)
    : option (prog op A * state * event) :=
  match p with
  | Vis o k =>
      if enabled o s then let '(x, s') := exec o s in Some (k x, s', Ev o)
      else None
  | _ => None
  end.

Definition finished {A : Type} (p : prog op A) : bool :=
  match p with
  | Vis _ _ => false
  | _ => true
  end.

(** Threads interleave one action at a time: the step [(i, e)] is thread
    [i] taking action [e]. Each read or write of shared memory is an action
    of its own. *)
Inductive step :
  list (prog op value) * state -> nat * event ->
  list (prog op value) * state -> Prop :=
| step_thread ts s i p p' s' e :
    ts !! i = Some p ->
    thread_step p s = Some (p', s', e) ->
    step (ts, s) (i, e) (<[i := p']> ts, s').

Inductive steps :
  list (prog op value) * state -> list (nat * event) ->
  list (prog op value) * state -> Prop :=
| steps_done c : steps c [] c
| steps_next c l c' ls c'' :
    step c l c' -> steps c' ls c'' -> steps c (l :: ls) c''.

(** Every thread has returned or raised. *)
Definition completed (ts : list (prog op value)) : Prop :=
  Forall (fun p => finished p = true) ts.

(** The execution in which the threads move in the given order, when each
    can move at its turn. *)
Fixpoint schedule (order : list nat) (ts : list (prog op value)) (s : state)
    : option (list (prog op value) * state * list (nat * event)) :=
  match order with
  | [] => Some (ts, s, [])
  | i :: order =>
      p ← ts !! i;
      '(p', s', e) ← thread_step p s;
      '(ts'', s'', tr) ← schedule order (<[i := p']> ts) s';
      Some (ts'', s'', (i, e) :: tr)
  end.

(** ** The source *)

Definition args := list value.
Definition kwargs := list (string * value).

(** The call of a function that takes no argument besides [self] or
    [cls]. *)
Definition no_arguments (a : args) (kw : kwargs) : bool :=
  match a, kw with
  | [], [] => true
  | _, _ => false
  end.

Definition is_None (v : value) : bool :=
  match v with VNone => true | _ => false end.

Definition getattr (self : value) (f : string) : prog hop value :=
  match self with
  | VObj a =>
      (r <- trigger (GetAttr a f) ;;
       match r with
       | Some v => Ret v
       | None => Throw (AttributeError f)
       end)%prog
  | _ => Throw (AttributeError f)
  end.

Definition setattr (self : value) (f : string) (v : value) : prog hop unit :=
  match self with
  | VObj a => trigger (SetAttr a f v)
  | _ => Throw (AttributeError f)
  end.

Definition append (l : value) (v : value) : prog hop unit :=
  match l with
  | VList l => trigger (Append l v)
  | _ => Throw (AttributeError "append")
  end.

Definition isinstance (obj : value) (c : string) : prog hop bool :=
  match obj with
  | VObj a =>
      (r <- trigger (ClassOf a) ;; Ret (bool_decide (r = Some c)))%prog
  | _ => Ret false
  end.

(** [str(v)] for the values a format string of the module receives. The
    text of a reference depends on its address and is left schematic. *)
Definition str (v : value) : string :=
  match v with
  | VNone => "None"
  | VBool true => "True"
  | VBool false => "False"
  | VInt n => pretty n
  | VStr s => s
  | VObj _ => "<object>"
  | VList _ => "<list>"
  end.

Module DatabaseConnection.

Definition __name__ : string := "DatabaseConnection".

(** Lines 21-26. [__new__(cls)] takes no argument besides [cls]; [cls] is
    [DatabaseConnection], which has no subclass. *)
Definition __new__ (a : args) (kw : kwargs) : prog op value :=
  if no_arguments a kw then
    (i <- trigger LoadInstance ;;
     (if is_None i then
        with_statement ClassLock
          (i' <- trigger LoadInstance ;;
           if is_None i' then
             (o <- trigger (OnHeap (New __name__)) ;;
              trigger (StoreInstance (VObj o)))
           else Ret tt)
      else Ret tt) ;;
     trigger LoadInstance)%prog
  else Throw (TypeError "DatabaseConnection.__new__").

(** Lines 28-32. [self.__class__] is [DatabaseConnection]. *)
Definition __init__ (self : value) (a : args) (kw : kwargs) : prog op unit :=
  if no_arguments a kw then
    (b <- trigger LoadInitialized ;;
     if negb b then
       (lift (setattr self "connection_string" (VStr "localhost:5432")) ;;
        lift (setattr self "connected" (VBool true)) ;;
        trigger (StoreInitialized true))
     else Ret tt)%prog
  else Throw (TypeError "DatabaseConnection.__init__").

(** A call of [DatabaseConnection] with positional arguments [a] and
    keyword arguments [kw], as [type.__call__] makes it: [__new__] with
    the arguments, then [__init__] with the same arguments on what
    [__new__] returned, when that is an instance of the class. *)
Definition call (a : args) (kw : kwargs) : prog op value :=
  (obj <- __new__ a kw ;;
   b <- lift (isinstance obj __name__) ;;
   (if b then __init__ obj a kw else Ret tt) ;;
   Ret obj)%prog.

(** Lines 34-35. *)
Definition execute_query (self : value) (query : string) : prog op string :=
  Ret ("Executing query: " +:+ query).

(** Lines 37-38. *)
Definition get_connection_info (self : value) : prog op string :=
  lift (cs <- getattr self "connection_string" ;;
        c <- getattr self "connected" ;;
        Ret ("Connected to: " +:+ str cs +:+ ", Status: " +:+ str c))%prog.

End DatabaseConnection.

(** A class that [singleton] can decorate: its name and its [__init__],
    which raises or initialises the new object. The constructor is a heap
    program: [instances] and [lock] are local to [singleton], and no
    constructor can name them. *)
Record pyclass := PyClass {
  cls_name : string;
  cls_init : value -> args -> kwargs -> prog hop unit
}.

(** A call of the class [cls] itself with arguments [a] and [kw], for a
    class that keeps [object.__new__]. *)
Definition construct (cls : pyclass) (a : args) (kw : kwargs) : prog hop value :=
  (o <- trigger (New (cls_name cls)) ;;
   cls_init cls (VObj o) a kw ;;
   Ret (VObj o))%prog.

(** Lines 51-56: [get_instance], closed over [cls] and over the
    environment [k] that holds [instances] and [lock]. *)
Definition get_instance (cls : pyclass) (k : nat) (a : args) (kw : kwargs)
    : prog op value :=
  (b <- trigger (Contains k (cls_name cls)) ;;
   (if negb b then
      with_statement (EnvLock k)
        (b' <- trigger (Contains k (cls_name cls)) ;;
         if negb b' then
           (v <- lift (construct cls a kw) ;;
            trigger (SetItem k (cls_name cls) v))
         else Ret tt)
    else Ret tt) ;;
   r <- trigger (GetItem k (cls_name cls)) ;;
   match r with
   | Some v => Ret v
   | None => Throw (KeyError (cls_name cls))
   end)%prog.

(** Lines 44-58: each decoration makes its own [instances] and [lock]. *)
Definition singleton (cls : pyclass) : prog op (args -> kwargs -> prog op value) :=
  (k <- trigger NewEnv ;; Ret (get_instance cls k))%prog.

Module Logger.

Definition __name__ : string := "Logger".

(** Lines 67-68. *)
Definition __init__ (self : value) (a : args) (kw : kwargs) : prog hop unit :=
  if no_arguments a kw then
    (l <- trigger NewList ;; setattr self "logs" (VList l))%prog
  else Throw (TypeError "Logger.__init__").

(** The class as written, before decoration. *)
Definition class : pyclass := PyClass __name__ __init__.

(** Lines 70-71. *)
Definition log (self : value) (message : value) : prog op unit :=
  lift (logs <- getattr self "logs" ;; append logs message)%prog.

(** Lines 73-74: the list itself is returned, not a copy. *)
Definition get_logs (self : value) : prog op value :=
  lift (getattr self "logs").

End Logger.

(** ** Observations *)

(** The content of the cell of class [c] in environment [k]. *)
Definition cell (k : nat) (c : string) (s : state) : option value :=
  envs s !! k ≫= fun e => instances e !! c.

(** [object.__new__(c)] is the action taken. *)
Definition allocates (c : string) (e : event) : bool :=
  match e with
  | Ev (OnHeap (New c')) => bool_decide (c' = c)
  | _ => false
  end.

(** Attribute [f] of some object is assigned. *)
Definition assigns (f : string) (e : event) : bool :=
  match e with
  | Ev (OnHeap (SetAttr _ f' _)) => bool_decide (f' = f)
  | _ => false
  end.

(** The action leaves the shared memory as it is. *)
Definition reads (e : event) : bool :=
  match e with
  | Ev (OnHeap (ClassOf _)) | Ev (OnHeap (GetAttr _ _)) => true
  | Ev LoadInstance | Ev LoadInitialized => true
  | Ev (Contains _ _) | Ev (GetItem _ _) => true
  | _ => false
  end.

Definition count (P : event -> bool) (t : list event) : nat :=
  length (filter (fun e => P e = true) t).

Definition list_content (l : nat) (s : state) : option (list value) :=
  lists (st_heap s) !! l.

Definition attribute (a : nat) (f : string) (s : state) : option value :=
  objects (st_heap s) !! a ≫= fun o => obj_attrs o !! f.

(** ** Sequences of calls *)

(** A call of one of the two singleton constructors of the module:
    [DatabaseConnection], or a class decorated with [singleton], through
    the [get_instance] of its environment. *)
Inductive call :=
| CallDatabaseConnection (a : args) (kw : kwargs)
| CallDecorated (cls : pyclass) (k : nat) (a : args) (kw : kwargs).




(** A client of the decorated [Logger]: it obtains handles with [Logger()]
    and logs messages through any handle it has obtained so far. *)
Inductive action :=
| Obtain
| Log (i : nat) (message : value).

Fixpoint session (k : nat) (acts : list action) (hs : list value)
    : prog op (list value) :=
  match acts with
  | [] => Ret hs
  | Obtain :: acts =>
      (h <- get_instance Logger.class k [] [] ;; session k acts (hs ++ [h]))%prog
  | Log i m :: acts =>
      match hs !! i with
      | Some h => (Logger.log h m ;; session k acts hs)%prog
      | None => session k acts hs
      end
  end.

(** The messages of the [log] calls a session makes, in the order of the
    calls, for a client that holds [n] handles. *)
Fixpoint messages (acts : list action) (n : nat) : list value :=
  match acts with
  | [] => []
  | Obtain :: acts => messages acts (S n)
  | Log i m :: acts =>
      if decide (i < n) then m :: messages acts n else messages acts n
  end.

(** ** The first call of [DatabaseConnection] *)

(** The memory once [__new__] has allocated and stored the instance. *)
Definition allocated (s : state) : state :=
  let o := length (objects (st_heap s)) in
  State (Heap (objects (st_heap s) ++ [Object DatabaseConnection.__name__ ∅])
              (lists (st_heap s)))
        (VObj o) false (_initialized s) (envs s).

(** The attributes [__init__] gives the instance. *)
Definition connection_attrs : gmap string value :=
  <["connected" := VBool true]> (<["connection_string" := VStr "localhost:5432"]> ∅).

(** The memory after the first call [DatabaseConnection()]. *)
Definition connected_state (s : state) : state :=
  let o := length (objects (st_heap s)) in
  State (Heap (objects (st_heap s) ++ [Object DatabaseConnection.__name__ connection_attrs])
              (lists (st_heap s)))
        (VObj o) false true (envs s).

(** The actions of the first call, which allocates object [o], and of a
    later call. *)
Definition first_call_trace (o : nat) : list event :=
  [Ev LoadInstance; Ev (Acquire ClassLock); Ev LoadInstance;
   Ev (OnHeap (New DatabaseConnection.__name__));
   Ev (StoreInstance (VObj o)); Ev (Release ClassLock); Ev LoadInstance;
   Ev (OnHeap (ClassOf o)); Ev LoadInitialized;
   Ev (OnHeap (SetAttr o "connection_string" (VStr "localhost:5432")));
   Ev (OnHeap (SetAttr o "connected" (VBool true)));
   Ev (StoreInitialized true)].

Definition later_call_trace (o : nat) : list event :=
  [Ev LoadInstance; Ev LoadInstance; Ev (OnHeap (ClassOf o)); Ev LoadInitialized].

(** ** States and traces of the statements *)

(** The module once [Logger] has been decorated, and once [Logger()] has
    been called. *)
Definition loaded_state : state := State empty_heap VNone false false [Env ∅ false].

(** What the constructor of [Logger] makes of a heap, and its actions. *)
Definition logger_heap (h : heap) : heap :=
  Heap (objects h ++
          [Object Logger.__name__ (<["logs" := VList (length (lists h))]> ∅)])
       (lists h ++ [[]]).

Definition logger_trace (h : heap) : list event :=
  [Ev (OnHeap (New Logger.__name__)); Ev (OnHeap NewList);
   Ev (OnHeap (SetAttr (length (objects h)) "logs" (VList (length (lists h)))))].

Definition logger_state : state :=
  State (logger_heap empty_heap) VNone false false
    [Env (<[Logger.__name__ := VObj 0]> ∅) false].




Definition class_of (a : nat) (s : state) : option string :=
  obj_class <$> objects (st_heap s) !! a.

(** The logger [o] is in the cell of environment [k], and its [logs] is
    the list [l], which holds [ms]. *)
Definition logging (k o l : nat) (ms : list value) (s : state) : Prop :=
  cell k Logger.__name__ s = Some (VObj o)
  /\ attribute o "logs" s = Some (VList l)
  /\ list_content l s = Some ms.


Definition connection_race : list nat :=
  [0; 1; 1; 1; 1; 1; 1; 1; 0; 0; 0; 0; 0; 1; 0; 1; 0; 0; 0; 1; 1; 1].

(** ** Program points of the racing callers *)

(** The proofs about racing callers follow each thread through the points
    of its program. [lcode] and [dcode] give the program that remains at
    each point, and [lstep] and [dstep] the action taken there; the lemmas
    [lcode_step] and [dcode_step] show that they are the actions of
    [get_instance] and of [DatabaseConnection.call]. *)

Definition b2n (b : bool) : nat := if b then 1 else 0.

Fixpoint weight {Ph : Type} (f : Ph -> nat) (phs : list Ph) : nat :=
  match phs with
  | [] => 0
  | ph :: phs => f ph + weight f phs
  end.

(** The points of a call [Logger()] in environment [k]. *)
Inductive lphase :=
| LStart | LWait | LRecheck | LAlloc
| LMkList (o : nat) | LSetLogs (o l : nat) | LStore (o : nat)
| LExit | LFetch | LDone (v : value) | LRaise (e : exn).

Definition ltail (k : nat) : prog op value :=
  (r <- trigger (GetItem k Logger.__name__) ;;
   match r with
   | Some v => Ret v
   | None => Throw (KeyError Logger.__name__)
   end)%prog.

Definition lstore (k : nat) (v : value) : prog op unit :=
  trigger (SetItem k Logger.__name__ v).

Definition lguard (k : nat) (q : prog op unit) : prog op value :=
  (try_finally q (trigger (Release (EnvLock k))) ;; (ltail k))%prog.

Definition lbody (k : nat) : prog op unit :=
  (b' <- trigger (Contains k Logger.__name__) ;;
   if negb b' then
     (v <- lift (construct Logger.class [] []) ;; lstore k v)
   else Ret tt)%prog.

Definition lcode (k : nat) (ph : lphase) : prog op value :=
  match ph with
  | LStart => get_instance Logger.class k [] []
  | LWait => (with_statement (EnvLock k) (lbody k) ;; (ltail k))%prog
  | LRecheck => lguard k (lbody k)
  | LAlloc => lguard k (v <- lift (construct Logger.class [] []) ;; lstore k v)%prog
  | LMkList o =>
      lguard k (v <- lift (Logger.__init__ (VObj o) [] [] ;; Ret (VObj o)) ;;
              lstore k v)%prog
  | LSetLogs o l =>
      lguard k (v <- lift (setattr (VObj o) "logs" (VList l) ;; Ret (VObj o)) ;;
              lstore k v)%prog
  | LStore o => lguard k (lstore k (VObj o))
  | LExit => lguard k (Ret tt)
  | LFetch => (ltail k)
  | LDone v => Ret v
  | LRaise e => Throw e
  end.

Definition lstep (k : nat) (ph : lphase) (s : state) : option (lphase * state * event) :=
  match ph with
  | LStart =>
      Some (match cell k Logger.__name__ s with Some _ => LFetch | None => LWait end,
            s, Ev (Contains k Logger.__name__))
  | LWait =>
      if lock_held (EnvLock k) s then None
      else Some (LRecheck, put_lock (EnvLock k) true s, Ev (Acquire (EnvLock k)))
  | LRecheck =>
      Some (match cell k Logger.__name__ s with Some _ => LExit | None => LAlloc end,
            s, Ev (Contains k Logger.__name__))
  | LAlloc =>
      Some (LMkList (length (objects (st_heap s))),
            snd (exec (OnHeap (New Logger.__name__)) s),
            Ev (OnHeap (New Logger.__name__)))
  | LMkList o =>
      Some (LSetLogs o (length (lists (st_heap s))),
            snd (exec (OnHeap NewList) s), Ev (OnHeap NewList))
  | LSetLogs o l =>
      Some (LStore o, snd (exec (OnHeap (SetAttr o "logs" (VList l))) s),
            Ev (OnHeap (SetAttr o "logs" (VList l))))
  | LStore o =>
      Some (LExit, snd (exec (SetItem k Logger.__name__ (VObj o)) s),
            Ev (SetItem k Logger.__name__ (VObj o)))
  | LExit =>
      Some (LFetch, put_lock (EnvLock k) false s, Ev (Release (EnvLock k)))
  | LFetch =>
      Some (match cell k Logger.__name__ s with
            | Some v => LDone v
            | None => LRaise (KeyError Logger.__name__)
            end, s, Ev (GetItem k Logger.__name__))
  | LDone _ | LRaise _ => None
  end.

(** A thread between [Acquire] and [Release] holds the lock; it has
    allocated and not yet stored after [New]; [lrank] bounds the actions
    it has left. *)
Definition lcrit (ph : lphase) : nat :=
  match ph with
  | LRecheck | LAlloc | LMkList _ | LSetLogs _ _ | LStore _ | LExit => 1
  | _ => 0
  end.

Definition lpost (ph : lphase) : nat :=
  match ph with
  | LMkList _ | LSetLogs _ _ | LStore _ => 1
  | _ => 0
  end.

Definition lrank (ph : lphase) : nat :=
  match ph with
  | LStart => 9 | LWait => 8 | LRecheck => 7 | LAlloc => 6
  | LMkList _ => 5 | LSetLogs _ _ => 4 | LStore _ => 3
  | LExit => 2 | LFetch => 1 | LDone _ | LRaise _ => 0
  end.

(** What each point knows of the cell. *)
Definition lallowed (k : nat) (s : state) (ph : lphase) : Prop :=
  match ph with
  | LStart | LWait | LRecheck => True
  | LAlloc | LMkList _ | LSetLogs _ _ | LStore _ =>
      cell k Logger.__name__ s = None
  | LExit | LFetch => is_Some (cell k Logger.__name__ s)
  | LDone v => cell k Logger.__name__ s = Some v
  | LRaise _ => False
  end.

Definition loccupied (k : nat) (s : state) : nat :=
  match cell k Logger.__name__ s with Some _ => 1 | None => 0 end.

(** The invariant of a pool of callers of [Logger()], with the actions
    taken so far. *)
Record linv (k : nat) (phs : list lphase) (s : state) (t : list event) : Prop := {
  linv_env : is_Some (envs s !! k);
  linv_allowed : forall j ph, phs !! j = Some ph -> lallowed k s ph;
  linv_lock : weight lcrit phs = b2n (lock_held (EnvLock k) s);
  linv_allocs :
    count (allocates Logger.__name__) t = weight lpost phs + loccupied k s;
  linv_rank : length t + weight lrank phs <= 9 * length phs
}.

(** The points of a call [DatabaseConnection()]. *)
Inductive dphase :=
| DStart | DWait | DRecheck | DAlloc | DStore (o : nat) | DExit | DReturn
| DIsInst (o : nat) | DInit (o : nat)
| DSetString (o : nat) | DSetConnected (o : nat) | DSetInitialized (o : nat)
| DDone (v : value).

(** What [DatabaseConnection()] does with the object [__new__] returned. *)
Definition drest (obj : value) : prog op value :=
  (b <- lift (isinstance obj DatabaseConnection.__name__) ;;
   (if b then DatabaseConnection.__init__ obj [] [] else Ret tt) ;;
   Ret obj)%prog.

Definition dbody : prog op unit :=
  (i' <- trigger LoadInstance ;;
   if is_None i' then
     (o <- trigger (OnHeap (New DatabaseConnection.__name__)) ;;
      trigger (StoreInstance (VObj o)))
   else Ret tt)%prog.

Definition dguard (q : prog op unit) : prog op value :=
  (obj <- (try_finally q (trigger (Release ClassLock)) ;; trigger LoadInstance) ;;
   drest obj)%prog.

Definition dcode (ph : dphase) : prog op value :=
  match ph with
  | DStart => DatabaseConnection.call [] []
  | DWait =>
      (obj <- (with_statement ClassLock dbody ;; trigger LoadInstance) ;;
       drest obj)%prog
  | DRecheck => dguard dbody
  | DAlloc =>
      dguard (o <- trigger (OnHeap (New DatabaseConnection.__name__)) ;;
              trigger (StoreInstance (VObj o)))%prog
  | DStore o => dguard (trigger (StoreInstance (VObj o)))
  | DExit => dguard (Ret tt)
  | DReturn => (obj <- trigger LoadInstance ;; drest obj)%prog
  | DIsInst o => drest (VObj o)
  | DInit o => (DatabaseConnection.__init__ (VObj o) [] [] ;; Ret (VObj o))%prog
  | DSetString o =>
      ((lift (setattr (VObj o) "connection_string" (VStr "localhost:5432")) ;;
        lift (setattr (VObj o) "connected" (VBool true)) ;;
        trigger (StoreInitialized true)) ;;
       Ret (VObj o))%prog
  | DSetConnected o =>
      ((lift (setattr (VObj o) "connected" (VBool true)) ;;
        trigger (StoreInitialized true)) ;;
       Ret (VObj o))%prog
  | DSetInitialized o => (trigger (StoreInitialized true) ;; Ret (VObj o))%prog
  | DDone v => Ret v
  end.

Definition dstep (ph : dphase) (s : state) : option (dphase * state * event) :=
  match ph with
  | DStart =>
      Some (if is_None (_instance s) then DWait else DReturn, s, Ev LoadInstance)
  | DWait =>
      if _lock s then None
      else Some (DRecheck, with_lock s true, Ev (Acquire ClassLock))
  | DRecheck =>
      Some (if is_None (_instance s) then DAlloc else DExit, s, Ev LoadInstance)
  | DAlloc =>
      Some (DStore (length (objects (st_heap s))),
            snd (exec (OnHeap (New DatabaseConnection.__name__)) s),
            Ev (OnHeap (New DatabaseConnection.__name__)))
  | DStore o =>
      Some (DExit, with_instance s (VObj o), Ev (StoreInstance (VObj o)))
  | DExit => Some (DReturn, with_lock s false, Ev (Release ClassLock))
  | DReturn =>
      Some (match _instance s with VObj o => DIsInst o | v => DDone v end,
            s, Ev LoadInstance)
  | DIsInst o =>
      Some (if bool_decide (obj_class <$> objects (st_heap s) !! o
                            = Some DatabaseConnection.__name__)
            then DInit o else DDone (VObj o),
            snd (exec (OnHeap (ClassOf o)) s), Ev (OnHeap (ClassOf o)))
  | DInit o =>
      Some (if _initialized s then DDone (VObj o) else DSetString o,
            s, Ev LoadInitialized)
  | DSetString o =>
      Some (DSetConnected o,
            snd (exec (OnHeap (SetAttr o "connection_string" (VStr "localhost:5432"))) s),
            Ev (OnHeap (SetAttr o "connection_string" (VStr "localhost:5432"))))
  | DSetConnected o =>
      Some (DSetInitialized o,
            snd (exec (OnHeap (SetAttr o "connected" (VBool true))) s),
            Ev (OnHeap (SetAttr o "connected" (VBool true))))
  | DSetInitialized o =>
      Some (DDone (VObj o), with_initialized s true, Ev (StoreInitialized true))
  | DDone _ => None
  end.

Definition dcrit (ph : dphase) : nat :=
  match ph with
  | DRecheck | DAlloc | DStore _ | DExit => 1
  | _ => 0
  end.

Definition dpost (ph : dphase) : nat :=
  match ph with
  | DStore _ => 1
  | _ => 0
  end.

Definition drank (ph : dphase) : nat :=
  match ph with
  | DStart => 12 | DWait => 11 | DRecheck => 10 | DAlloc => 9 | DStore _ => 8
  | DExit => 7 | DReturn => 6 | DIsInst _ => 5 | DInit _ => 4
  | DSetString _ => 3 | DSetConnected _ => 2 | DSetInitialized _ => 1
  | DDone _ => 0
  end.

Definition dallowed (s : state) (ph : dphase) : Prop :=
  match ph with
  | DStart | DWait | DRecheck => True
  | DAlloc | DStore _ => _instance s = VNone
  | DExit | DReturn => is_None (_instance s) = false
  | DIsInst o | DInit o | DSetString o | DSetConnected o | DSetInitialized o =>
      _instance s = VObj o
  | DDone v => _instance s = v /\ is_None v = false
  end.

Definition doccupied (s : state) : nat := if is_None (_instance s) then 0 else 1.

(** The invariant of a pool of callers of [DatabaseConnection()]. *)
Record dinv (phs : list dphase) (s : state) (t : list event) : Prop := {
  dinv_allowed : forall j ph, phs !! j = Some ph -> dallowed s ph;
  dinv_lock : weight dcrit phs = b2n (_lock s);
  dinv_allocs :
    count (allocates DatabaseConnection.__name__) t = weight dpost phs + doccupied s;
  dinv_rank : length t + weight drank phs <= 12 * length phs
}.

(** The instance [o] has the attributes [__init__] assigns. *)
Definition has_connection (o : nat) (s : state) : Prop :=
  attribute o "connection_string" s = Some (VStr "localhost:5432")
  /\ attribute o "connected" s = Some (VBool true).

(** What each point of a call [DatabaseConnection()] knows of the heap. *)
Definition dknows (s : state) (ph : dphase) : Prop :=
  match ph with
  | DStore o => class_of o s = Some DatabaseConnection.__name__
  | DSetConnected o =>
      attribute o "connection_string" s = Some (VStr "localhost:5432")
  | DSetInitialized o => has_connection o s
  | DDone v => exists o, v = VObj o /\ has_connection o s
  | _ => True
  end.

(** What a pool of callers of [DatabaseConnection()] keeps true of the
    heap. *)
Record dheap (phs : list dphase) (s : state) : Prop := {
  dheap_object : _instance s = VNone \/ exists o, _instance s = VObj o;
  dheap_class : forall o,
    _instance s = VObj o -> class_of o s = Some DatabaseConnection.__name__;
  dheap_initialized :
    _initialized s = true -> exists o, _instance s = VObj o /\ has_connection o s;
  dheap_knows : forall j ph, phs !! j = Some ph -> dknows s ph
}.

(** ** Callers with their own arguments *)
(** Callers of a decorated class through [get_instance], one thread per
    pair of positional and keyword arguments. *)
Definition callers (cls : pyclass) (k : nat) (al : list (args * kwargs))
    : list (prog op value) :=
  (fun c => get_instance cls k c.1 c.2) <$> al.

(** What remains of a call of [get_instance] that found the cell occupied:
    the whole call, [return instances[cls]], or the value returned. *)
Inductive on_fast_path (cls : pyclass) (k : nat) (v : value)
    : prog op value -> Prop :=
| fast_call a kw : on_fast_path cls k v (get_instance cls k a kw)
| fast_return :
    on_fast_path cls k v
      (r <- trigger (GetItem k (cls_name cls)) ;;
       match r with
       | Some v => Ret v
       | None => Throw (KeyError (cls_name cls))
       end)%prog
| fast_done : on_fast_path cls k v (Ret v).

(** The actions left to a caller on the fast path. *)
Definition fast_rank (p : prog op value) : nat :=
  match p with
  | Vis (Contains _ _) _ => 2
  | Vis _ _ => 1
  | _ => 0
  end.

(** The module once [Logger()] has been called, while some thread holds
    the lock of the decorator. *)
Definition logger_state_locked : state :=
  State (logger_heap empty_heap) VNone false false
    [Env (<[Logger.__name__ := VObj 0]> ∅) true].

(** The points of a call [DatabaseConnection()] that finds the instance
    [o] in the cell, and [_initialized] set. *)
Definition on_fast_path_db (o : nat) (ph : dphase) : Prop :=
  match ph with
  | DStart | DReturn => True
  | DIsInst o' | DInit o' => o' = o
  | DDone v => v = VObj o
  | _ => False
  end.

Definition dfast_rank (ph : dphase) : nat :=
  match ph with
  | DStart => 4 | DReturn => 3 | DIsInst _ => 2 | DInit _ => 1
  | _ => 0
  end.

(** The cell of [DatabaseConnection] holds the initialised instance [o]. *)
Definition connection_ready (o : nat) (s : state) : Prop :=
  _instance s = VObj o
  /\ class_of o s = Some DatabaseConnection.__name__
  /\ _initialized s = true.

(** ** Program points of racing callers of any decorated class *)

(** The points of a call of [get_instance] for a class [cls] in
    environment [k], each caller with its own arguments. Under the lock
    the point is the part of the constructor that remains. *)
Inductive gphase :=
| GStart (a : args) (kw : kwargs)
| GWait (a : args) (kw : kwargs)
| GRecheck (a : args) (kw : kwargs)
| GConstruct (p : prog hop value)
| GExit
| GFetch
| GDone (v : value)
| GRaise (e : exn).

Definition gtail (cls : pyclass) (k : nat) : prog op value :=
  (r <- trigger (GetItem k (cls_name cls)) ;;
   match r with
   | Some v => Ret v
   | None => Throw (KeyError (cls_name cls))
   end)%prog.

Definition gstore (cls : pyclass) (k : nat) (v : value) : prog op unit :=
  trigger (SetItem k (cls_name cls) v).

Definition gguard (cls : pyclass) (k : nat) (q : prog op unit) : prog op value :=
  (try_finally q (trigger (Release (EnvLock k))) ;; gtail cls k)%prog.

Definition gbody (cls : pyclass) (k : nat) (a : args) (kw : kwargs)
    : prog op unit :=
  (b' <- trigger (Contains k (cls_name cls)) ;;
   if negb b' then
     (v <- lift (construct cls a kw) ;; gstore cls k v)
   else Ret tt)%prog.

Definition gcode (cls : pyclass) (k : nat) (ph : gphase) : prog op value :=
  match ph with
  | GStart a kw => get_instance cls k a kw
  | GWait a kw =>
      (with_statement (EnvLock k) (gbody cls k a kw) ;; gtail cls k)%prog
  | GRecheck a kw => gguard cls k (gbody cls k a kw)
  | GConstruct p => gguard cls k (v <- lift p ;; gstore cls k v)%prog
  | GExit => gguard cls k (Ret tt)
  | GFetch => gtail cls k
  | GDone v => Ret v
  | GRaise e => Throw e
  end.

Definition gstep (cls : pyclass) (k : nat) (ph : gphase) (s : state)
    : option (gphase * state * event) :=
  match ph with
  | GStart a kw =>
      Some (match cell k (cls_name cls) s with
            | Some _ => GFetch
            | None => GWait a kw
            end, s, Ev (Contains k (cls_name cls)))
  | GWait a kw =>
      if lock_held (EnvLock k) s then None
      else Some (GRecheck a kw, put_lock (EnvLock k) true s,
                 Ev (Acquire (EnvLock k)))
  | GRecheck a kw =>
      Some (match cell k (cls_name cls) s with
            | Some _ => GExit
            | None => GConstruct (construct cls a kw)
            end, s, Ev (Contains k (cls_name cls)))
  | GConstruct (Vis o f) =>
      let '(x, h) := exec_heap o (st_heap s) in
      Some (GConstruct (f x), with_heap s h, Ev (OnHeap o))
  | GConstruct (Ret v) =>
      Some (GExit, snd (exec (SetItem k (cls_name cls) v) s),
            Ev (SetItem k (cls_name cls) v))
  | GConstruct (Throw e) =>
      Some (GRaise e, put_lock (EnvLock k) false s, Ev (Release (EnvLock k)))
  | GExit =>
      Some (GFetch, put_lock (EnvLock k) false s, Ev (Release (EnvLock k)))
  | GFetch =>
      Some (match cell k (cls_name cls) s with
            | Some v => GDone v
            | None => GRaise (KeyError (cls_name cls))
            end, s, Ev (GetItem k (cls_name cls)))
  | GDone _ | GRaise _ => None
  end.

Definition gcrit (ph : gphase) : nat :=
  match ph with
  | GRecheck _ _ | GConstruct _ | GExit => 1
  | _ => 0
  end.

(** [instances[c] = ...] in environment [k] is the action taken. *)
Definition caches (k : nat) (c : string) (e : event) : bool :=
  match e with
  | Ev (SetItem k' c' _) => bool_decide (k' = k /\ c' = c)
  | _ => false
  end.

(** The action is one of a payload constructor. *)
Definition on_heap (e : event) : bool :=
  match e with
  | Ev (OnHeap _) => true
  | _ => false
  end.

(** The constructor of [cls], called with the arguments of one of the
    callers [al] on some heap, ends with [r]. *)
Definition constructed (cls : pyclass) (al : list (args * kwargs))
    (i : nat) (r : outcome value) : Prop :=
  exists a kw h h' t,
    al !! i = Some (a, kw)
    /\ run_heap (construct cls a kw) h = (r, h', t).

(** The constructor called with the arguments of caller [i] has come to
    [p], on the heap [h]. *)
Definition constructing (cls : pyclass) (al : list (args * kwargs))
    (i : nat) (p : prog hop value) (h : heap) : Prop :=
  exists a kw h0 t0,
    al !! i = Some (a, kw)
    /\ run_heap (construct cls a kw) h0
       = (let '(r, h', t) := run_heap p h in (r, h', t0 ++ t)).

(** What point [ph] of caller [i] knows of the memory. *)
Definition gallowed (cls : pyclass) (k : nat) (al : list (args * kwargs))
    (s : state) (i : nat) (ph : gphase) : Prop :=
  match ph with
  | GStart a kw | GWait a kw | GRecheck a kw => al !! i = Some (a, kw)
  | GConstruct p =>
      cell k (cls_name cls) s = None /\ constructing cls al i p (st_heap s)
  | GExit | GFetch => is_Some (cell k (cls_name cls) s)
  | GDone v => cell k (cls_name cls) s = Some v
  | GRaise e => constructed cls al i (Raised e)
  end.

Definition goccupied (cls : pyclass) (k : nat) (s : state) : nat :=
  match cell k (cls_name cls) s with Some _ => 1 | None => 0 end.

(** The invariant of a pool of callers of a decorated class, with the
    actions taken so far. *)
Record ginv (cls : pyclass) (k : nat) (al : list (args * kwargs))
    (phs : list gphase) (s : state) (t : list event) : Prop := {
  ginv_env : is_Some (envs s !! k);
  ginv_allowed : forall j ph, phs !! j = Some ph -> gallowed cls k al s j ph;
  ginv_lock : weight gcrit phs = b2n (lock_held (EnvLock k) s);
  ginv_caches : count (caches k (cls_name cls)) t = goccupied cls k s;
  ginv_built : forall v,
    cell k (cls_name cls) s = Some v ->
    exists i, constructed cls al i (Returned v)
}.



(** ** The discipline of a lock, read off an execution *)

Definition acquires (l : lock_id) (e : event) : bool :=
  match e with
  | Ev (Acquire l') => bool_decide (l' = l)
  | _ => false
  end.

Definition releases (l : lock_id) (e : event) : bool :=
  match e with
  | Ev (Release l') => bool_decide (l' = l)
  | _ => false
  end.

(** [cls._instance = ...] is the action taken. *)
Definition stores_instance (e : event) : bool :=
  match e with
  | Ev (StoreInstance _) => true
  | _ => false
  end.

(** The execution [tr] respects the lock [l], which thread [owner] holds
    at its start: the lock is taken only when it is free, released only
    by the thread that holds it, and an action that [guarded] selects is
    taken only by the thread that holds the lock. *)
Fixpoint exclusive (l : lock_id) (guarded : event -> bool)
    (owner : option nat) (tr : list (nat * event)) : bool :=
  match tr with
  | [] => true
  | (i, e) :: tr =>
      if acquires l e then
        bool_decide (owner = None) && exclusive l guarded (Some i) tr
      else if releases l e then
        bool_decide (owner = Some i) && exclusive l guarded None tr
      else
        (negb (guarded e) || bool_decide (owner = Some i))
        && exclusive l guarded owner tr
  end.

(** Thread [owner] is the one in the section that the lock protects. *)
Definition owns {Ph : Type} (crit : Ph -> nat) (phs : list Ph)
    (owner : option nat) : Prop :=
  match owner with
  | Some i => exists ph, phs !! i = Some ph /\ crit ph = 1
  | None => weight crit phs = 0
  end.

(** What the lock of a decorated class protects: the actions of the
    constructor and the assignment of the cell. *)
Definition guarded_by_decorator (cls : pyclass) (k : nat) (e : event) : bool :=
  on_heap e || caches k (cls_name cls) e.

(** What the lock of [DatabaseConnection] protects: [object.__new__] and
    the assignment of [_instance]. *)
Definition guarded_by_class (e : event) : bool :=
  allocates DatabaseConnection.__name__ e || stores_instance e.

(** [m] actions of one caller of [DatabaseConnection()] that runs on its
    own, from the point [ph]. *)
Fixpoint drun (m : nat) (ph : dphase) (s : state)
    : option (dphase * state * list event) :=
  match m with
  | 0 => Some (ph, s, [])
  | S m =>
      '(ph1, s1, e) ← dstep ph s;
      '(ph2, s2, t) ← drun m ph1 s1;
      Some (ph2, s2, e :: t)
  end.

(** The instance [o] is in the cell of [DatabaseConnection], and
    [__init__] has not set [_initialized] yet. *)
Definition connection_fresh (o : nat) (s : state) : Prop :=
  _instance s = VObj o
  /\ class_of o s = Some DatabaseConnection.__name__
  /\ _initialized s = false.

(** ** Locks over a sequence of calls *)




(** ** Racing calls of [log] *)

(** A call [logger.log(message)] as a thread of its own; it returns
    [None]. *)
Definition log_call (self : value) (m : value) : prog op value :=
  (Logger.log self m ;; Ret VNone)%prog.

(** The points of a call of [log] on the logger [o]: before [self.logs]
    is read, before [append], and after. *)
Inductive pphase :=
| PStart (m : value)
| PAppend (m : value) (l : nat)
| PDone (m : value)
| PFail (m : value) (e : exn).

Definition pcode (o : nat) (ph : pphase) : prog op value :=
  match ph with
  | PStart m => log_call (VObj o) m
  | PAppend m l => (lift (append (VList l) m) ;; Ret VNone)%prog
  | PDone _ => Ret VNone
  | PFail _ e => Throw e
  end.

Definition pstep (o : nat) (ph : pphase) (s : state)
    : option (pphase * state * event) :=
  match ph with
  | PStart m =>
      Some (match attribute o "logs" s with
            | Some (VList l) => PAppend m l
            | Some _ => PFail m (AttributeError "append")
            | None => PFail m (AttributeError "logs")
            end, s, Ev (OnHeap (GetAttr o "logs")))
  | PAppend m l =>
      Some (PDone m, snd (exec (OnHeap (Append l m)) s), Ev (OnHeap (Append l m)))
  | PDone _ | PFail _ _ => None
  end.

Definition pmsg (ph : pphase) : value :=
  match ph with
  | PStart m | PAppend m _ | PDone m | PFail m _ => m
  end.

Definition plogged (ph : pphase) : option value :=
  match ph with
  | PDone m => Some m
  | _ => None
  end.

Definition prank (ph : pphase) : nat :=
  match ph with
  | PStart _ => 2
  | PAppend _ _ => 1
  | _ => 0
  end.

(** The value the action appends to the list [l], if it is one. *)
Definition appends (l : nat) (e : event) : option value :=
  match e with
  | Ev (OnHeap (Append l' v)) => if decide (l' = l) then Some v else None
  | _ => None
  end.

(** The values appended to the list [l], in the order of the actions. *)
Definition appended (l : nat) (t : list event) : list value :=
  omap (appends l) t.

(** The invariant of a pool of callers of [log] on the logger [o], whose
    list [l] held [ms] at first. *)
Record pinv (o l : nat) (ms : list value) (phs : list pphase) (s : state)
    (t : list event) : Prop := {
  pinv_logs : attribute o "logs" s = Some (VList l);
  pinv_content : list_content l s = Some (ms ++ appended l t);
  pinv_allowed : forall j ph, phs !! j = Some ph ->
    match ph with
    | PAppend _ l' => l' = l
    | PFail _ _ => False
    | _ => True
    end;
  pinv_logged : appended l t ≡ₚ omap plogged phs;
  pinv_rank : length t + weight prank phs <= 2 * length phs
}.

(** ** What racing callers of [Logger()] know of the heap *)

(** The list [l] exists and is empty. *)
Definition empty_list (l : nat) (s : state) : Prop :=
  list_content l s = Some [].

(** What each point of a call [Logger()] knows of the heap. *)
Definition lknows (s : state) (ph : lphase) : Prop :=
  match ph with
  | LMkList o => class_of o s = Some Logger.__name__
  | LSetLogs o l => class_of o s = Some Logger.__name__ /\ empty_list l s
  | LStore o =>
      exists l, attribute o "logs" s = Some (VList l) /\ empty_list l s
  | _ => True
  end.

(** What a pool of callers of [Logger()] keeps true of the heap: the
    instance in the cell has its list, which holds [content], the
    messages logged so far. *)
Record lheap (k : nat) (content : list value) (phs : list lphase)
    (s : state) : Prop := {
  lheap_cell : forall v,
    cell k Logger.__name__ s = Some v ->
    exists o l, v = VObj o /\ logging k o l content s;
  lheap_knows : forall j ph, phs !! j = Some ph -> lknows s ph
}.

(** ** Clients that obtain the logger and log *)

(** [Logger().log(m)] as a thread of its own. *)
Definition logger_client (k : nat) (m : value) : prog op value :=
  (h <- get_instance Logger.class k [] [] ;; log_call h m)%prog.

(** The points of a client: those of [Logger()], then those of [log] on
    the logger [o] it was handed. *)
Inductive cphase :=
| CGet (ph : lphase) (m : value)
| CLog (o : nat) (ph : pphase).

Definition cget (ph : lphase) (m : value) : cphase :=
  match ph with
  | LDone (VObj o) => CLog o (PStart m)
  | _ => CGet ph m
  end.

Definition ccode (k : nat) (ph : cphase) : prog op value :=
  match ph with
  | CGet ph m => (h <- lcode k ph ;; log_call h m)%prog
  | CLog o ph => pcode o ph
  end.

Definition cstep (k : nat) (ph : cphase) (s : state)
    : option (cphase * state * event) :=
  match ph with
  | CGet (LDone (VObj o)) m =>
      (fun '(ph', s', e) => (CLog o ph', s', e)) <$> pstep o (PStart m) s
  | CGet ph m => (fun '(ph', s', e) => (cget ph' m, s', e)) <$> lstep k ph s
  | CLog o ph => (fun '(ph', s', e) => (CLog o ph', s', e)) <$> pstep o ph s
  end.

(** The point of [Logger()] a client is at; it stays at the end of the
    call while it logs. *)
Definition cproj (ph : cphase) : lphase :=
  match ph with
  | CGet ph _ => ph
  | CLog o _ => LDone (VObj o)
  end.

Definition cmsg (ph : cphase) : value :=
  match ph with
  | CGet _ m => m
  | CLog _ ph => pmsg ph
  end.

Definition clogged (ph : cphase) : option value :=
  match ph with
  | CGet _ _ => None
  | CLog _ ph => plogged ph
  end.

Definition crank (ph : cphase) : nat :=
  match ph with
  | CGet _ _ => 2
  | CLog _ ph => prank ph
  end.

(** The value the action appends to a list, if it is one, and the values
    appended, in the order of the actions. *)
Definition logs_value (e : event) : option value :=
  match e with
  | Ev (OnHeap (Append _ v)) => Some v
  | _ => None
  end.

Definition logged (t : list event) : list value := omap logs_value t.

(** What each point of a client knows. *)
Definition cknows (k : nat) (s : state) (ph : cphase) : Prop :=
  match ph with
  | CGet ph _ => finished (lcode k ph) = false
  | CLog o (PAppend _ l) => attribute o "logs" s = Some (VList l)
  | CLog _ (PFail _ _) => False
  | CLog _ _ => True
  end.

(** The invariant of a pool of clients with the messages [msgs], and the
    actions taken so far; [tg] are the actions of the calls [Logger()]
    among them. *)
Record cinv (k : nat) (msgs : list value) (phs : list cphase) (s : state)
    (t : list event) : Prop := {
  cinv_get : exists tg,
    linv k (cproj <$> phs) s tg
    /\ count (allocates Logger.__name__) t = count (allocates Logger.__name__) tg
    /\ length t + weight crank phs <= length tg + 2 * length phs;
  cinv_heap : lheap k (logged t) (cproj <$> phs) s;
  cinv_none : cell k Logger.__name__ s = None -> logged t = [];
  cinv_knows : forall j ph, phs !! j = Some ph -> cknows k s ph;
  cinv_logged : logged t ≡ₚ omap clogged phs;
  cinv_msgs : cmsg <$> phs = msgs
}.

(** * Properties *)

(** ** The semantics of the program constructors *)

Lemma with_heap_same s : with_heap s (st_heap s) = s.
Proof. by destruct s. Qed.

Lemma run_bind {A B : Type} (p : prog op A) (f : A -> prog op B) s :
  run (bind p f) s =
    let '(r, s', t) := run p s in
    match r with
    | Returned a => let '(r', s'', t') := run (f a) s' in (r', s'', t ++ t')
    | Raised e => (Raised e, s', t)
    | Blocked => (Blocked, s', t)
    end.
Proof.
  revert s. induction p as [a|e|X o k IH]; intros s; simpl.
  - by destruct (run (f a) s) as [[r s'] t].
  - done.
  - destruct (enabled o s); [|done].
    destruct (exec o s) as [x s']. rewrite IH.
    destruct (run (k x) s') as [[r s''] t]. destruct r as [a|e|]; try done.
    by destruct (run (f a) s'') as [[r' s3] t'].
Qed.


Lemma run_heap_not_blocked {A : Type} (p : prog hop A) h h' t :
  run_heap p h ≠ (Blocked, h', t).
Proof.
  revert h h' t. induction p as [a|e|X o k IH]; intros h h' t; simpl; try done.
  destruct (exec_heap o h) as [x h1].
  destruct (run_heap (k x) h1) as [[r h2] t2] eqn:E. intros [= -> -> <-].
  by eapply IH.
Qed.

Lemma run_lift {A : Type} (p : prog hop A) s :
  run (lift p) s =
    let '(r, h, t) := run_heap p (st_heap s) in (r, with_heap s h, t).
Proof.
  revert s. induction p as [a|e|X o k IH]; intros s; simpl.
  - by rewrite with_heap_same.
  - by rewrite with_heap_same.
  - destruct (exec_heap o (st_heap s)) as [x h']. rewrite IH. simpl.
    by destruct (run_heap (k x) h') as [[r h''] t].
Qed.

Lemma run_try_finally_release {A : Type} (p : prog op A) l s :
  run (try_finally p (trigger (Release l))) s =
    let '(r, s', t) := run p s in
    match r with
    | Blocked => (Blocked, s', t)
    | _ => (r, put_lock l false s', t ++ [Ev (Release l)])
    end.
Proof.
  revert s. induction p as [a|e|X o k IH]; intros s; simpl; try done.
  destruct (enabled o s); [|done].
  destruct (exec o s) as [x s']. rewrite IH.
  destruct (run (k x) s') as [[r s''] t]. by destruct r.
Qed.

Lemma run_with_statement {A : Type} (body : prog op A) l s :
  run (with_statement l body) s =
    if lock_held l s then (Blocked, s, [])
    else
      let '(r, s', t) := run body (put_lock l true s) in
      match r with
      | Blocked => (Blocked, s', Ev (Acquire l) :: t)
      | _ => (r, put_lock l false s', Ev (Acquire l) :: t ++ [Ev (Release l)])
      end.
Proof.
  unfold with_statement. simpl. destruct (lock_held l s); simpl; [done|].
  rewrite run_try_finally_release.
  destruct (run body (put_lock l true s)) as [[r s'] t]. by destruct r.
Qed.

(** ** Calls of [get_instance] *)

Lemma lock_held_env k s :
  lock_held (EnvLock k) s = false ->
  exists e, envs s !! k = Some e /\ lock e = false.
Proof. simpl. destruct (envs s !! k) as [e|]; [eauto|done]. Qed.

Lemma release_acquire k s :
  lock_held (EnvLock k) s = false ->
  alter (set_lock false) k (alter (set_lock true) k (envs s)) = envs s.
Proof.
  intros (e & He & Hl)%lock_held_env. rewrite list_alter_alter_eq.
  rewrite <- (list_alter_id id (envs s) k) at 2 by done.
  apply list_alter_ext; [|done]. intros e' He'. rewrite He in He'. injection He' as <-. destruct e; simpl in *; by subst.
Qed.

Lemma release_set_acquire k c v s :
  lock_held (EnvLock k) s = false ->
  alter (set_lock false) k (alter (set_item c v) k (alter (set_lock true) k (envs s)))
  = alter (set_item c v) k (envs s).
Proof.
  intros (e & He & Hl)%lock_held_env. rewrite !list_alter_alter_eq.
  apply list_alter_ext; [|done]. intros e' He'. rewrite He in He'. injection He' as <-. destruct e; simpl in *; by subst.
Qed.

Lemma get_instance_occupied cls k a kw s v :
  cell k (cls_name cls) s = Some v ->
  run (get_instance cls k a kw) s =
    (Returned v, s, [Ev (Contains k (cls_name cls)); Ev (GetItem k (cls_name cls))]).
Proof.
  intros H. unfold cell in H. unfold get_instance. simpl. rewrite H. simpl. rewrite H. done.
Qed.

Lemma get_instance_blocked cls k a kw s :
  cell k (cls_name cls) s = None ->
  lock_held (EnvLock k) s = true ->
  run (get_instance cls k a kw) s = (Blocked, s, [Ev (Contains k (cls_name cls))]).
Proof.
  intros H L. unfold cell in H. unfold get_instance.
  rewrite run_bind. simpl run at 1. rewrite H. cbn [negb].
  by rewrite run_bind, run_with_statement, L.
Qed.

Lemma get_instance_constructs cls k a kw s v h t :
  cell k (cls_name cls) s = None ->
  lock_held (EnvLock k) s = false ->
  run_heap (construct cls a kw) (st_heap s) = (Returned v, h, t) ->
  run (get_instance cls k a kw) s =
    (Returned v,
     with_envs (with_heap s h) (alter (set_item (cls_name cls) v) k (envs s)),
     [Ev (Contains k (cls_name cls)); Ev (Acquire (EnvLock k));
      Ev (Contains k (cls_name cls))] ++ t ++
     [Ev (SetItem k (cls_name cls) v); Ev (Release (EnvLock k));
      Ev (GetItem k (cls_name cls))]).
Proof.
  intros H L C. unfold get_instance.
  rewrite run_bind. simpl run at 1. unfold cell in H. rewrite H. cbn [negb].
  rewrite run_bind, run_with_statement, L.
  rewrite run_bind. simpl run at 1.
  replace (envs (put_lock (EnvLock k) true s) !! k ≫= λ e : env, instances e !! cls_name cls) with (@None value).
  2:{ simpl. rewrite list_lookup_alter_eq. destruct (envs s !! k); done. }
  cbn [negb]. rewrite run_bind, run_lift.
  cbn [st_heap with_envs put_lock].
  rewrite C. simpl.
  rewrite release_set_acquire by done.
  rewrite list_lookup_alter_eq.
  destruct (lock_held_env _ _ L) as (e & -> & _). simpl.
  rewrite lookup_insert_eq. simpl. rewrite <- !app_assoc. done.
Qed.

Lemma get_instance_raises cls k a kw s e h t :
  cell k (cls_name cls) s = None ->
  lock_held (EnvLock k) s = false ->
  run_heap (construct cls a kw) (st_heap s) = (Raised e, h, t) ->
  run (get_instance cls k a kw) s =
    (Raised e, with_heap s h,
     [Ev (Contains k (cls_name cls)); Ev (Acquire (EnvLock k));
      Ev (Contains k (cls_name cls))] ++ t ++ [Ev (Release (EnvLock k))]).
Proof.
  intros H L C. unfold get_instance.
  rewrite run_bind. simpl run at 1. unfold cell in H. rewrite H. cbn [negb].
  rewrite run_bind, run_with_statement, L.
  rewrite run_bind. simpl run at 1.
  replace (envs (put_lock (EnvLock k) true s) !! k ≫= λ e : env, instances e !! cls_name cls) with (@None value).
  2:{ simpl. rewrite list_lookup_alter_eq. destruct (envs s !! k); done. }
  cbn [negb]. rewrite run_bind, run_lift.
  cbn [st_heap with_envs put_lock].
  rewrite C. simpl.
  rewrite release_acquire by done. destruct s; done.
Qed.

(** ** Calls of [DatabaseConnection] *)

Lemma new_arguments a kw s :
  no_arguments a kw = false ->
  run (DatabaseConnection.__new__ a kw) s
  = (Raised (TypeError "DatabaseConnection.__new__"), s, []).
Proof. intros H. unfold DatabaseConnection.__new__. by rewrite H. Qed.

Lemma new_occupied s :
  is_None (_instance s) = false ->
  run (DatabaseConnection.__new__ [] []) s
  = (Returned (_instance s), s, [Ev LoadInstance; Ev LoadInstance]).
Proof. intros H. simpl. rewrite H. done. Qed.

Lemma new_blocked s :
  _instance s = VNone -> _lock s = true ->
  run (DatabaseConnection.__new__ [] []) s = (Blocked, s, [Ev LoadInstance]).
Proof. intros H L. simpl. rewrite H. simpl. rewrite L. done. Qed.

Lemma new_empty s :
  _instance s = VNone -> _lock s = false ->
  run (DatabaseConnection.__new__ [] []) s
  = (Returned (VObj (length (objects (st_heap s)))), allocated s,
     [Ev LoadInstance; Ev (Acquire ClassLock); Ev LoadInstance;
      Ev (OnHeap (New DatabaseConnection.__name__));
      Ev (StoreInstance (VObj (length (objects (st_heap s)))));
      Ev (Release ClassLock); Ev LoadInstance]).
Proof. intros H L. simpl. rewrite H. simpl. rewrite L. simpl. rewrite H. done. Qed.

Lemma alter_last {A} (f : A -> A) (l : list A) (x : A) :
  alter f (length l) (l ++ [x]) = l ++ [f x].
Proof. induction l; simpl; [done|]. by f_equal. Qed.

Lemma lookup_last {A} (l : list A) (x : A) : (l ++ [x]) !! length l = Some x.
Proof. by rewrite list_lookup_middle. Qed.

Lemma call_arguments a kw s :
  no_arguments a kw = false ->
  run (DatabaseConnection.call a kw) s
  = (Raised (TypeError "DatabaseConnection.__new__"), s, []).
Proof.
  intros H. unfold DatabaseConnection.call. rewrite run_bind, new_arguments; done.
Qed.

Lemma call_blocked s :
  _instance s = VNone -> _lock s = true ->
  run (DatabaseConnection.call [] []) s = (Blocked, s, [Ev LoadInstance]).
Proof.
  intros H L. unfold DatabaseConnection.call. rewrite run_bind, new_blocked; done.
Qed.

Lemma call_first s :
  _instance s = VNone -> _lock s = false -> _initialized s = false ->
  run (DatabaseConnection.call [] []) s
  = (Returned (VObj (length (objects (st_heap s)))), connected_state s,
     first_call_trace (length (objects (st_heap s)))).
Proof.
  intros H L I. unfold DatabaseConnection.call.
  rewrite run_bind, new_empty by done.
  simpl. rewrite lookup_last. simpl. rewrite I. simpl.
  rewrite alter_last. simpl. rewrite alter_last. done.
Qed.

Lemma call_later s o :
  _instance s = VObj o ->
  obj_class <$> objects (st_heap s) !! o = Some DatabaseConnection.__name__ ->
  _initialized s = true ->
  run (DatabaseConnection.call [] []) s = (Returned (VObj o), s, later_call_trace o).
Proof.
  intros H C I. unfold DatabaseConnection.call.
  rewrite run_bind, new_occupied by (by rewrite H).
  rewrite H. simpl. rewrite C. simpl. rewrite I. simpl.
  by destruct s as [[] ? ? ? ?].
Qed.

Lemma connected_state_later s :
  _instance (connected_state s) = VObj (length (objects (st_heap s)))
  /\ obj_class <$> objects (st_heap (connected_state s)) !! length (objects (st_heap s))
     = Some DatabaseConnection.__name__
  /\ _initialized (connected_state s) = true.
Proof. simpl. by rewrite lookup_last. Qed.

Lemma no_arguments_true a kw : no_arguments a kw = true -> a = [] /\ kw = [].
Proof. by destruct a, kw. Qed.


(** *** Heap programs only add to the heap *)




(** *** The four ways a call of [get_instance] goes *)

Lemma get_instance_cases cls k a kw s :
  (exists v, cell k (cls_name cls) s = Some v
     /\ run (get_instance cls k a kw) s
        = (Returned v, s,
           [Ev (Contains k (cls_name cls)); Ev (GetItem k (cls_name cls))]))
  \/ (cell k (cls_name cls) s = None /\ lock_held (EnvLock k) s = true
      /\ run (get_instance cls k a kw) s
         = (Blocked, s, [Ev (Contains k (cls_name cls))]))
  \/ (cell k (cls_name cls) s = None /\ lock_held (EnvLock k) s = false
      /\ exists v h t,
         run_heap (construct cls a kw) (st_heap s) = (Returned v, h, t)
         /\ run (get_instance cls k a kw) s
            = (Returned v,
               with_envs (with_heap s h)
                 (alter (set_item (cls_name cls) v) k (envs s)),
               [Ev (Contains k (cls_name cls)); Ev (Acquire (EnvLock k));
                Ev (Contains k (cls_name cls))] ++ t ++
               [Ev (SetItem k (cls_name cls) v); Ev (Release (EnvLock k));
                Ev (GetItem k (cls_name cls))]))
  \/ (cell k (cls_name cls) s = None /\ lock_held (EnvLock k) s = false
      /\ exists e h t,
         run_heap (construct cls a kw) (st_heap s) = (Raised e, h, t)
         /\ run (get_instance cls k a kw) s
            = (Raised e, with_heap s h,
               [Ev (Contains k (cls_name cls)); Ev (Acquire (EnvLock k));
                Ev (Contains k (cls_name cls))] ++ t ++
               [Ev (Release (EnvLock k))])).
Proof.
  destruct (cell k (cls_name cls) s) as [v|] eqn:C.
  { left. eauto using get_instance_occupied. }
  destruct (lock_held (EnvLock k) s) eqn:L.
  { right; left. eauto using get_instance_blocked. }
  destruct (run_heap (construct cls a kw) (st_heap s)) as [[r h] t] eqn:R.
  destruct r as [v|e|].
  - right; right; left. repeat split; try done.
    exists v, h, t. eauto using get_instance_constructs.
  - right; right; right. repeat split; try done.
    exists e, h, t. eauto using get_instance_raises.
  - by apply run_heap_not_blocked in R.
Qed.



(** ** The constructor of [Logger] *)

Lemma construct_logger h :
  run_heap (construct Logger.class [] []) h
  = (Returned (VObj (length (objects h))), logger_heap h, logger_trace h).
Proof. simpl. by rewrite alter_last. Qed.

Lemma construct_logger_arguments a kw h :
  no_arguments a kw = false ->
  run_heap (construct Logger.class a kw) h
  = (Raised (TypeError "Logger.__init__"),
     Heap (objects h ++ [Object Logger.__name__ ∅]) (lists h),
     [Ev (OnHeap (New Logger.__name__))]).
Proof. intros H. unfold construct. simpl. unfold Logger.__init__. by rewrite H. Qed.

(** ** Two calls in sequence *)

Lemma count_app P t1 t2 : count P (t1 ++ t2) = count P t1 + count P t2.
Proof. unfold count. by rewrite filter_app, length_app. Qed.

(** C1. Starting from an empty cell, two calls in sequence return the same
    handle, and the payload is constructed once: over both calls exactly
    one object of the class is allocated and each of its attributes is
    assigned exactly once; the second call only reads. This holds for
    [DatabaseConnection()] and for the decorated [Logger()]. *)
Theorem sequential_identity :
  (forall s,
     _instance s = VNone -> _lock s = false -> _initialized s = false ->
     exists o s' t1 t2,
       run (DatabaseConnection.call [] []) s = (Returned (VObj o), s', t1)
       /\ run (DatabaseConnection.call [] []) s' = (Returned (VObj o), s', t2)
       /\ count (allocates DatabaseConnection.__name__) (t1 ++ t2) = 1
       /\ count (assigns "connection_string") (t1 ++ t2) = 1
       /\ count (assigns "connected") (t1 ++ t2) = 1
       /\ forallb reads t2 = true)
  /\ (forall k s,
        cell k Logger.__name__ s = None -> lock_held (EnvLock k) s = false ->
        exists o s' t1 t2,
          run (get_instance Logger.class k [] []) s = (Returned (VObj o), s', t1)
          /\ run (get_instance Logger.class k [] []) s' = (Returned (VObj o), s', t2)
          /\ count (allocates Logger.__name__) (t1 ++ t2) = 1
          /\ count (assigns "logs") (t1 ++ t2) = 1
          /\ forallb reads t2 = true).
Proof.
  split.
  - intros s H L I.
    destruct (connected_state_later s) as (H' & C' & I').
    eexists _, _, _, _. split; [by apply call_first|].
    split; [by apply call_later|]. done.
  - intros k s C L.
    pose proof (construct_logger (st_heap s)) as R.
    eexists _, _, _, _. split.
    { apply (get_instance_constructs Logger.class); [done..|exact R]. }
    split.
    { apply (get_instance_occupied Logger.class). unfold cell. simpl.
      rewrite list_lookup_alter_eq.
      destruct (lock_held_env _ _ L) as (e & -> & _). simpl.
      by rewrite lookup_insert_eq. }
    done.
Qed.

Lemma sequential_identity_witness :
  (exists o s' t1 t2,
     run (DatabaseConnection.call [] []) module_state = (Returned (VObj o), s', t1)
     /\ run (DatabaseConnection.call [] []) s' = (Returned (VObj o), s', t2)
     /\ count (allocates DatabaseConnection.__name__) (t1 ++ t2) = 1
     /\ count (assigns "connection_string") (t1 ++ t2) = 1
     /\ count (assigns "connected") (t1 ++ t2) = 1
     /\ forallb reads t2 = true)
  /\ (exists o s' t1 t2,
        run (get_instance Logger.class 0 [] []) loaded_state
        = (Returned (VObj o), s', t1)
        /\ run (get_instance Logger.class 0 [] []) s' = (Returned (VObj o), s', t2)
        /\ count (allocates Logger.__name__) (t1 ++ t2) = 1
        /\ count (assigns "logs") (t1 ++ t2) = 1
        /\ forallb reads t2 = true).
Proof.
  split.
  - apply (proj1 sequential_identity module_state); reflexivity.
  - apply (proj2 sequential_identity 0 loaded_state); reflexivity.
Defined.

(** ** Calls that do nothing to the cell *)


(** C9. [execute_query] returns ["Executing query: "] followed by the
    query. It takes no action on the shared memory, which it leaves as it
    was: the cell, the class attributes and the attributes of every
    instance. *)
Theorem execute_query_pure (self : value) (query : string) (s : state) :
  run (DatabaseConnection.execute_query self query) s
  = (Returned ("Executing query: " +:+ query), s, []).
Proof. done. Qed.

(** C10. A call of the decorated [Logger] with at least one positional or
    keyword argument raises [TypeError] when the cell is empty, and leaves
    the cell empty (and its lock free); the same call returns the cached
    instance, and changes nothing, when the cell is occupied. *)
Theorem logger_arguments (k : nat) (a : args) (kw : kwargs) (s : state) :
  no_arguments a kw = false ->
  (cell k Logger.__name__ s = None -> lock_held (EnvLock k) s = false ->
   exists s' t,
     run (get_instance Logger.class k a kw) s
     = (Raised (TypeError "Logger.__init__"), s', t)
     /\ cell k Logger.__name__ s' = None
     /\ lock_held (EnvLock k) s' = false
     /\ envs s' = envs s)
  /\ (forall h, cell k Logger.__name__ s = Some h ->
      run (get_instance Logger.class k a kw) s
      = (Returned h, s,
         [Ev (Contains k Logger.__name__); Ev (GetItem k Logger.__name__)])).
Proof.
  intros N. split.
  - intros C L. eexists _, _. split.
    { apply (get_instance_raises Logger.class); [done..|].
      by apply construct_logger_arguments. }
    done.
  - intros h C. by apply (get_instance_occupied Logger.class).
Qed.

Lemma logger_arguments_witness :
  (exists s' t,
     run (get_instance Logger.class 0 [VInt 1] []) loaded_state
     = (Raised (TypeError "Logger.__init__"), s', t)
     /\ cell 0 Logger.__name__ s' = None
     /\ lock_held (EnvLock 0) s' = false
     /\ envs s' = envs loaded_state)
  /\ run (get_instance Logger.class 0 [VInt 1] []) logger_state
     = (Returned (VObj 0), logger_state,
        [Ev (Contains 0 Logger.__name__); Ev (GetItem 0 Logger.__name__)]).
Proof.
  split.
  - apply (proj1 (logger_arguments 0 [VInt 1] [] loaded_state eq_refl));
      reflexivity.
  - apply (proj2 (logger_arguments 0 [VInt 1] [] logger_state eq_refl)).
    reflexivity.
Defined.

(** ** An occupied cell stays as it is *)






(** ** A constructor that raises *)

Lemma cell_after_set k c v s h :
  lock_held (EnvLock k) s = false ->
  cell k c (with_envs (with_heap s h) (alter (set_item c v) k (envs s))) = Some v.
Proof.
  intros (e & He & _)%lock_held_env. unfold cell. simpl.
  rewrite list_lookup_alter_eq, He. simpl. by rewrite lookup_insert_eq.
Qed.

(** C4. If the constructor of a decorated class raises [e] during a call
    of [get_instance] on an empty cell, the call raises the same [e], the
    cell is still empty and its lock is free; a later call whose
    constructor returns constructs the instance and caches it. For
    [DatabaseConnection], a call that raises on an empty cell raises the
    [TypeError] of [__new__] and leaves the memory as it was, and a later
    call [DatabaseConnection()] constructs and caches the instance. *)
Theorem failure_then_retry :
  (forall cls k a kw s e h t,
     cell k (cls_name cls) s = None -> lock_held (EnvLock k) s = false ->
     run_heap (construct cls a kw) (st_heap s) = (Raised e, h, t) ->
     exists s1 t1,
       run (get_instance cls k a kw) s = (Raised e, s1, t1)
       /\ cell k (cls_name cls) s1 = None
       /\ lock_held (EnvLock k) s1 = false
       /\ forall a' kw' v h' t',
            run_heap (construct cls a' kw') (st_heap s1) = (Returned v, h', t') ->
            exists s2 t2,
              run (get_instance cls k a' kw') s1 = (Returned v, s2, t2)
              /\ cell k (cls_name cls) s2 = Some v)
  /\ (forall a kw s e s1 t1,
        _instance s = VNone -> _lock s = false ->
        run (DatabaseConnection.call a kw) s = (Raised e, s1, t1) ->
        e = TypeError "DatabaseConnection.__new__"
        /\ s1 = s
        /\ exists o s2 t2,
             run (DatabaseConnection.call [] []) s1 = (Returned (VObj o), s2, t2)
             /\ _instance s2 = VObj o).
Proof.
  split.
  - intros cls k a kw s e h t C L R. eexists _, _.
    split; [by apply get_instance_raises|]. split; [done|]. split; [done|].
    intros a' kw' v h' t' R'. eexists _, _.
    split; [by apply get_instance_constructs|]. by apply cell_after_set.
  - intros a kw s e s1 t1 I L.
    destruct (no_arguments a kw) eqn:N.
    + apply no_arguments_true in N as [-> ->].
      unfold DatabaseConnection.call. rewrite run_bind, new_empty by done.
      simpl. rewrite lookup_last. simpl. by destruct (_initialized s).
    + rewrite call_arguments by done. intros [= <- <- <-].
      split; [done|]. split; [done|].
      unfold DatabaseConnection.call. rewrite run_bind, new_empty by done.
      simpl. rewrite lookup_last. simpl.
      destruct (_initialized s); simpl; eauto.
Qed.

Lemma failure_then_retry_witness :
  (exists s1 t1,
     run (get_instance Logger.class 0 [VInt 1] []) loaded_state
     = (Raised (TypeError "Logger.__init__"), s1, t1)
     /\ cell 0 Logger.__name__ s1 = None
     /\ lock_held (EnvLock 0) s1 = false
     /\ exists s2 t2,
          run (get_instance Logger.class 0 [] []) s1 = (Returned (VObj 1), s2, t2)
          /\ cell 0 Logger.__name__ s2 = Some (VObj 1))
  /\ (exists o s2 t2,
        run (DatabaseConnection.call [] []) module_state
        = (Returned (VObj o), s2, t2)
        /\ _instance s2 = VObj o).
Proof.
  split.
  - destruct (proj1 failure_then_retry Logger.class 0 [VInt 1] [] loaded_state
                (TypeError "Logger.__init__")
                (Heap [Object Logger.__name__ ∅] [])
                [Ev (OnHeap (New Logger.__name__))]
                eq_refl eq_refl eq_refl) as (s1 & t1 & R & C & L & F).
    exists s1, t1. split; [exact R|]. split; [exact C|]. split; [exact L|].
    injection R as <- <-.
    exact (F [] [] (VObj 1) _ _ eq_refl).
  - destruct (proj2 failure_then_retry [VInt 1] [] module_state
                (TypeError "DatabaseConnection.__new__") module_state []
                eq_refl eq_refl eq_refl) as (_ & _ & F).
    exact F.
Defined.

(** ** Arguments of later calls *)

(** C5, as stated, fails for the [DatabaseConnection] cell: [__new__]
    takes no argument besides [cls], so a later call with an argument
    raises [TypeError] instead of returning the original instance. *)
Lemma later_arguments_counterexample :
  ~ (forall s a kw a' kw' h s1 t1,
       _instance s = VNone ->
       run (DatabaseConnection.call a kw) s = (Returned h, s1, t1) ->
       exists s2 t2,
         run (DatabaseConnection.call a' kw') s1 = (Returned h, s2, t2)).
Proof.
  intros H.
  destruct (H module_state [] [] [VStr "replica:5433"] [] (VObj 0)
              (connected_state module_state) (first_call_trace 0)
              eq_refl eq_refl) as (s2 & t2 & R).
  discriminate R.
Qed.

(** C5, amended. For a decorated class, once a call of [get_instance] on
    an empty cell has returned the instance constructed with its
    arguments, a later call with any arguments returns that instance,
    takes no action but the two reads of [instances], and leaves the
    memory as it is. For [DatabaseConnection], a call that returns has no
    arguments; a later call without arguments returns the original
    instance, and a later call with arguments raises the [TypeError] of
    [__new__]: in both cases the memory is left as it is, and no new
    instance is made. *)
Theorem later_arguments_ignored :
  (forall cls k a kw s h s1 t1,
     cell k (cls_name cls) s = None ->
     run (get_instance cls k a kw) s = (Returned h, s1, t1) ->
     (exists t, run_heap (construct cls a kw) (st_heap s) = (Returned h, st_heap s1, t))
     /\ forall a' kw',
          run (get_instance cls k a' kw') s1
          = (Returned h, s1,
             [Ev (Contains k (cls_name cls)); Ev (GetItem k (cls_name cls))]))
  /\ (forall a kw s h s1 t1,
        _instance s = VNone ->
        run (DatabaseConnection.call a kw) s = (Returned h, s1, t1) ->
        (a = [] /\ kw = [])
        /\ _instance s1 = h
        /\ (exists o, h = VObj o
              /\ run (DatabaseConnection.call [] []) s1
                 = (Returned h, s1, later_call_trace o))
        /\ forall a' kw', no_arguments a' kw' = false ->
             run (DatabaseConnection.call a' kw') s1
             = (Raised (TypeError "DatabaseConnection.__new__"), s1, [])).
Proof.
  split.
  - intros cls k a kw s h s1 t1 C.
    destruct (get_instance_cases cls k a kw s)
      as [(v & C' & ->)|[(_ & L & ->)|[(_ & L & v & h' & t' & R & ->)
         |(_ & L & e & h' & t' & R & ->)]]]; intros [= <- <- <-]; [congruence|].
    split; [by exists t'|]. intros a' kw'.
    apply get_instance_occupied. by apply cell_after_set.
  - intros a kw s h s1 t1 I R.
    destruct (no_arguments a kw) eqn:N; [|by rewrite call_arguments in R].
    apply no_arguments_true in N as [-> ->].
    destruct (_lock s) eqn:L; [by rewrite call_blocked in R|].
    assert (exists at0,
      s1 = State (Heap (objects (st_heap s) ++ [Object DatabaseConnection.__name__ at0])
                       (lists (st_heap s)))
                 (VObj (length (objects (st_heap s)))) false true (envs s)
      /\ h = VObj (length (objects (st_heap s)))) as (at0 & -> & ->).
    { revert R. unfold DatabaseConnection.call.
      rewrite run_bind, new_empty by done. simpl. rewrite lookup_last. simpl.
      destruct (_initialized s) eqn:In; simpl.
      - intros [= <- <- <-]. eexists. split; [|done]. unfold with_heap, allocated. simpl.
        by rewrite In.
      - rewrite !alter_last. simpl. intros [= <- <- <-]. by eexists. }
    split; [done|]. split; [done|]. split.
    + eexists. split; [done|]. apply call_later; simpl; try done.
      by rewrite lookup_last.
    + intros a' kw' N. by apply call_arguments.
Qed.

Lemma later_arguments_ignored_witness :
  (forall a' kw',
     run (get_instance Logger.class 0 a' kw')
       logger_state
     = (Returned (VObj 0), logger_state,
        [Ev (Contains 0 Logger.__name__); Ev (GetItem 0 Logger.__name__)]))
  /\ (forall a' kw', no_arguments a' kw' = false ->
        run (DatabaseConnection.call a' kw') (connected_state module_state)
        = (Raised (TypeError "DatabaseConnection.__new__"),
           connected_state module_state, [])).
Proof.
  split.
  - exact (proj2 (proj1 later_arguments_ignored Logger.class 0 [] [] loaded_state
             (VObj 0) _ _ eq_refl eq_refl)).
  - exact (proj2 (proj2 (proj2 (proj2 later_arguments_ignored [] [] module_state
             (VObj 0) _ _ eq_refl eq_refl)))).
Defined.

(** ** Repeated calls of [DatabaseConnection] *)




Lemma connection_attrs_string :
  connection_attrs !! "connection_string" = Some (VStr "localhost:5432").
Proof. unfold connection_attrs. by rewrite lookup_insert_ne, lookup_insert_eq. Qed.




(** ** Two decorated classes *)






(** ** The shared log *)

Lemma run_log k o l ms m s :
  logging k o l ms s ->
  exists s',
    run (Logger.log (VObj o) m) s
    = (Returned tt, s', [Ev (OnHeap (GetAttr o "logs")); Ev (OnHeap (Append l m))])
    /\ logging k o l (ms ++ [m]) s'.
Proof.
  intros (C & A & M). unfold attribute in A. unfold list_content in M.
  eexists. unfold Logger.log. rewrite run_lift. simpl. rewrite A. simpl.
  split; [done|]. split; [done|]. split; [done|].
  unfold list_content. simpl. by rewrite list_lookup_alter_eq, M.
Qed.

Lemma run_get_logs k o l ms s :
  logging k o l ms s ->
  run (Logger.get_logs (VObj o)) s
  = (Returned (VList l), s, [Ev (OnHeap (GetAttr o "logs"))]).
Proof.
  intros (C & A & M). unfold attribute in A.
  unfold Logger.get_logs. rewrite run_lift. simpl. rewrite A. simpl.
  by rewrite with_heap_same.
Qed.

Lemma session_cons_obtain k acts hs :
  session k (Obtain :: acts) hs
  = (h <- get_instance Logger.class k [] [] ;; session k acts (hs ++ [h]))%prog.
Proof. done. Qed.

Lemma session_occupied k o l acts : forall hs ms s,
  logging k o l ms s ->
  Forall (eq (VObj o)) hs ->
  exists hs' s' t,
    run (session k acts hs) s = (Returned hs', s', t)
    /\ Forall (eq (VObj o)) hs'
    /\ length hs <= length hs'
    /\ logging k o l (ms ++ messages acts (length hs)) s'.
Proof.
  induction acts as [|[|i m] acts IH]; intros hs ms s Lg F.
  - exists hs, s, []. rewrite app_nil_r. done.
  - rewrite session_cons_obtain, run_bind.
    rewrite (get_instance_occupied Logger.class k [] [] s (VObj o)) by apply Lg.
    destruct (IH (hs ++ [VObj o]) ms s Lg) as (hs' & s' & t & R & F' & Len & Lg').
    { apply Forall_app. split; [done|]. by constructor. }
    rewrite R. eexists _, _, _. split; [done|]. split; [done|].
    rewrite length_app in *. simpl in *. split; [lia|].
    by rewrite Nat.add_1_r in Lg'.
  - simpl. destruct (hs !! i) as [h|] eqn:Hi.
    + assert (h = VObj o) as ->.
      { symmetry. eapply Forall_lookup_1; eauto. }
      destruct (run_log k o l ms m s Lg) as (s1 & R1 & Lg1).
      destruct (IH hs (ms ++ [m]) s1 Lg1 F) as (hs' & s' & t & R & F' & Len & Lg').
      rewrite run_bind, R1, R. eexists _, _, _. split; [done|].
      split; [done|]. split; [done|].
      apply lookup_lt_Some in Hi. rewrite decide_True by done.
      by rewrite <- app_assoc in Lg'.
    + destruct (IH hs ms s Lg F) as (hs' & s' & t & R & F' & Len & Lg').
      rewrite R. eexists _, _, _. split; [done|]. split; [done|].
      split; [done|].
      apply lookup_ge_None in Hi. rewrite decide_False by lia. done.
Qed.

Lemma logging_first k s :
  cell k Logger.__name__ s = None ->
  lock_held (EnvLock k) s = false ->
  logging k (length (objects (st_heap s))) (length (lists (st_heap s))) []
    (with_envs (with_heap s (logger_heap (st_heap s)))
       (alter (set_item Logger.__name__ (VObj (length (objects (st_heap s)))))
          k (envs s))).
Proof.
  intros C L. split; [by apply cell_after_set|]. split.
  - unfold attribute. simpl. rewrite lookup_last. simpl. by rewrite lookup_insert_eq.
  - unfold list_content. simpl. by rewrite lookup_last.
Qed.

(** C8. A client obtains handles with [Logger()] and logs messages
    through any handle it has obtained, in any order. All the handles are
    the same, and [get_logs] on any of them returns one list, which holds
    the logged messages in the order of the [log] calls. *)
Theorem shared_log (k : nat) (acts : list action) (s : state) :
  cell k Logger.__name__ s = None ->
  lock_held (EnvLock k) s = false ->
  exists hs s' t,
    run (session k acts []) s = (Returned hs, s', t)
    /\ (forall h h', h ∈ hs -> h' ∈ hs -> h = h')
    /\ (forall h, h ∈ hs ->
          exists l t',
            run (Logger.get_logs h) s' = (Returned (VList l), s', t')
            /\ list_content l s' = Some (messages acts 0)).
Proof.
  revert s. induction acts as [|[|i m] acts IH]; intros s C L.
  - exists [], s, []. split; [done|].
    split; [intros h h' []%elem_of_nil|intros h []%elem_of_nil].
  - rewrite session_cons_obtain, run_bind.
    rewrite (get_instance_constructs Logger.class k [] [] s _ _ _ C L
               (construct_logger (st_heap s))).
    destruct (session_occupied k _ _ acts [VObj (length (objects (st_heap s)))]
                [] _ (logging_first k s C L)) as (hs & s' & t & R & F & _ & Lg).
    { by constructor. }
    cbn [app cls_name Logger.class]. rewrite R. eexists _, _, _. split; [done|].
    rewrite Forall_forall in F. split.
    + intros h h' Hh Hh'. by rewrite <- (F h Hh), <- (F h' Hh').
    + intros h Hh. rewrite <- (F h Hh). eexists _, _.
      split; [by eapply run_get_logs|]. apply Lg.
  - simpl. by apply IH.
Qed.

Lemma shared_log_witness :
  exists hs s' t,
    run (session 0 [Obtain; Obtain; Log 0 (VStr "First message");
                    Log 1 (VStr "Second message")] []) loaded_state
    = (Returned hs, s', t)
    /\ (forall h h', h ∈ hs -> h' ∈ hs -> h = h')
    /\ (forall h, h ∈ hs ->
          exists l t',
            run (Logger.get_logs h) s' = (Returned (VList l), s', t')
            /\ list_content l s'
               = Some [VStr "First message"; VStr "Second message"]).
Proof.
  exact (shared_log 0 [Obtain; Obtain; Log 0 (VStr "First message");
                       Log 1 (VStr "Second message")] loaded_state
           eq_refl eq_refl).
Defined.

Example shared_log_demo :
  let '(r, s, _) :=
    run (logger1 <- get_instance Logger.class 0 [] [] ;;
         logger2 <- get_instance Logger.class 0 [] [] ;;
         Logger.log logger1 (VStr "First message") ;;
         Logger.log logger2 (VStr "Second message") ;;
         Logger.get_logs logger1)%prog loaded_state in
  r = Returned (VList 0)
  /\ list_content 0 s = Some [VStr "First message"; VStr "Second message"].
Proof. done. Qed.

(** ** Racing callers *)

(** *** Pools of threads at known program points *)

Section Phases.
Context {Ph : Type}.
Variable code : Ph -> prog op value.
Variable pstep : Ph -> state -> option (Ph * state * event).
Hypothesis code_step : forall ph s,
  thread_step (code ph) s = (fun '(ph', s', e) => (code ph', s', e)) <$> pstep ph s.

Lemma weight_lookup (f : Ph -> nat) phs i a : phs !! i = Some a -> f a <= weight f phs.
Proof.
  revert i. induction phs as [|x phs IH]; intros [|i] H; simpl in *; try done.
  - injection H as ->. lia.
  - apply IH in H. lia.
Qed.

Lemma weight_insert (f : Ph -> nat) phs i ph ph' :
  phs !! i = Some ph ->
  weight f (<[i := ph']> phs) + f ph = weight f phs + f ph'.
Proof.
  revert i. induction phs as [|x phs IH]; intros [|i] H; simpl in *; try done.
  - injection H as ->. lia.
  - apply IH in H. lia.
Qed.

Lemma weight_two (f : Ph -> nat) phs i j a b :
  i <> j -> phs !! i = Some a -> phs !! j = Some b ->
  f a + f b <= weight f phs.
Proof.
  revert i j. induction phs as [|x phs IH]; intros [|i] [|j] Hij Hi Hj;
    simpl in *; try done.
  - injection Hi as ->. apply weight_lookup with (f := f) in Hj. lia.
  - injection Hj as ->. apply weight_lookup with (f := f) in Hi. lia.
  - assert (i <> j) as Hij' by lia. specialize (IH i j Hij' Hi Hj). lia.
Qed.

Lemma weight_replicate (f : Ph -> nat) n ph : weight f (replicate n ph) = n * f ph.
Proof. induction n as [|n IH]; simpl; [done|]. lia. Qed.

Lemma step_phases phs s i e ts' s' :
  step (code <$> phs, s) (i, e) (ts', s') ->
  exists ph ph',
    phs !! i = Some ph /\ pstep ph s = Some (ph', s', e)
    /\ ts' = code <$> <[i := ph']> phs.
Proof.
  inversion 1 as [ts s0 i0 p p' s0' e0 Hi Hs]; subst.
  rewrite list_lookup_fmap in Hi.
  destruct (phs !! i) as [ph|] eqn:Hph; [|done]. injection Hi as <-.
  rewrite code_step in Hs.
  destruct (pstep ph s) as [[[ph' s1] e1]|] eqn:Hp; [|done].
  injection Hs as <- <- <-.
  exists ph, ph'. split; [done|]. split; [done|]. by rewrite list_fmap_insert.
Qed.

Variable I : list Ph -> state -> list event -> Prop.
Hypothesis I_step : forall phs s t i ph ph' s' e,
  I phs s t -> phs !! i = Some ph -> pstep ph s = Some (ph', s', e) ->
  I (<[i := ph']> phs) s' (t ++ [e]).

Lemma steps_invariant c tr c' :
  steps c tr c' ->
  forall phs t, c.1 = code <$> phs -> I phs c.2 t ->
  exists phs', c'.1 = code <$> phs' /\ length phs' = length phs
    /\ I phs' c'.2 (t ++ tr.*2).
Proof.
  induction 1 as [c|c [i e] c' ls c'' Hstep _ IH]; intros phs t Hc HI.
  - exists phs. by rewrite app_nil_r.
  - destruct c as [ts s], c' as [ts' s']. simpl in *. subst ts.
    apply step_phases in Hstep as (ph & ph' & Hi & Hp & ->).
    destruct (IH (<[i := ph']> phs) (t ++ [e]) eq_refl) as (phs' & E & Len & HI').
    { by eapply I_step. }
    exists phs'. split; [done|]. rewrite length_insert in Len. split; [done|].
    by rewrite <- app_assoc in HI'.
Qed.

(** A pool can move unless every thread has finished or waits for a
    lock. *)
Lemma step_exists phs s i ph ph' s' e :
  phs !! i = Some ph -> pstep ph s = Some (ph', s', e) ->
  exists l c, step (code <$> phs, s) l c.
Proof.
  intros Hi Hp. exists (i, e), (<[i := code ph']> (code <$> phs), s').
  apply step_thread with (p := code ph).
  - by rewrite list_lookup_fmap, Hi.
  - by rewrite code_step, Hp.
Qed.
End Phases.

Lemma weight_mono {Ph : Type} (f g : Ph -> nat) phs :
  (forall ph, f ph <= g ph) -> weight f phs <= weight g phs.
Proof. intros H. induction phs as [|ph phs IH]; simpl; [done|]. specialize (H ph). lia. Qed.

Lemma weight_positive {Ph : Type} (f : Ph -> nat) phs :
  0 < weight f phs -> exists i ph, phs !! i = Some ph /\ 0 < f ph.
Proof.
  induction phs as [|ph phs IH]; simpl; [lia|]. intros H.
  destruct (f ph) as [|m] eqn:E.
  - destruct IH as (i & ph' & Hi & Hf); [lia|]. by exists (S i), ph'.
  - exists 0, ph. split; [done|]. lia.
Qed.

Lemma count_snoc P t e : count P (t ++ [e]) = count P t + b2n (P e).
Proof.
  rewrite count_app. f_equal. unfold count. rewrite filter_cons.
  destruct (P e); by case_decide.
Qed.

Lemma cell_put_lock k c l b s : cell k c (put_lock l b s) = cell k c s.
Proof.
  destruct l as [|k']; [done|]. unfold cell. simpl.
  destruct (decide (k' = k)) as [->|]; [|by rewrite list_lookup_alter_ne].
  rewrite list_lookup_alter_eq. by destruct (envs s !! k).
Qed.

Lemma lock_held_put_lock k b s :
  is_Some (envs s !! k) -> lock_held (EnvLock k) (put_lock (EnvLock k) b s) = b.
Proof. intros [e He]. simpl. by rewrite list_lookup_alter_eq, He. Qed.

Lemma lock_held_set_item l k c v s :
  lock_held l (with_envs s (alter (set_item c v) k (envs s))) = lock_held l s.
Proof.
  destruct l as [|k']; [done|]. simpl.
  destruct (decide (k = k')) as [->|]; [|by rewrite list_lookup_alter_ne].
  rewrite list_lookup_alter_eq. by destruct (envs s !! k').
Qed.

Lemma cell_set_item_eq k c v s :
  is_Some (envs s !! k) ->
  cell k c (with_envs s (alter (set_item c v) k (envs s))) = Some v.
Proof.
  intros [e He]. unfold cell. simpl. rewrite list_lookup_alter_eq, He. simpl.
  by rewrite lookup_insert_eq.
Qed.

Lemma is_Some_alter {A} (f : A -> A) (l : list A) i j :
  is_Some (l !! j) -> is_Some (alter f i l !! j).
Proof.
  intros [x Hx]. destruct (decide (i = j)) as [->|].
  - rewrite list_lookup_alter_eq, Hx. by eexists.
  - rewrite list_lookup_alter_ne by done. by eexists.
Qed.

Lemma lock_held_false_env k s :
  lock_held (EnvLock k) s = false -> is_Some (envs s !! k).
Proof. simpl. destruct (envs s !! k); [by eexists|done]. Qed.

Section LoggerThreads.
Variable k : nat.

Lemma lcode_step ph s :
  thread_step (lcode k ph) s
  = (fun '(ph', s', e) => (lcode k ph', s', e)) <$> lstep k ph s.
Proof.
  destruct ph; simpl; unfold cell; try done.
  - by destruct (envs s !! k ≫= _).
  - destruct (envs s !! k) as [[? []]|]; done.
  - by destruct (envs s !! k ≫= _).
  - by destruct (envs s !! k ≫= _).
Qed.

Lemma lstep_env ph s ph' s' e :
  lstep k ph s = Some (ph', s', e) ->
  is_Some (envs s !! k) -> is_Some (envs s' !! k).
Proof.
  intros Hs E. destruct ph; cbn [lstep] in Hs;
    try destruct (lock_held (EnvLock k) s);
    simplify_eq; simpl; by eauto using is_Some_alter.
Qed.

Lemma lstep_local ph s ph' s' e :
  lstep k ph s = Some (ph', s', e) ->
  is_Some (envs s !! k) ->
  lallowed k s ph ->
  (lcrit ph = 1 -> lock_held (EnvLock k) s = true) ->
  is_Some (envs s' !! k)
  /\ lallowed k s' ph'
  /\ lcrit ph' + b2n (lock_held (EnvLock k) s)
     = lcrit ph + b2n (lock_held (EnvLock k) s')
  /\ b2n (allocates Logger.__name__ e) + lpost ph + loccupied k s
     = lpost ph' + loccupied k s'
  /\ lrank ph' < lrank ph
  /\ (cell k Logger.__name__ s' = cell k Logger.__name__ s
      \/ (cell k Logger.__name__ s = None /\ lcrit ph = 1)).
Proof.
  intros Hs E A L. split; [by eapply lstep_env|]. unfold loccupied.
  destruct ph; cbn [lstep] in Hs; simplify_eq;
    cbn [lcrit lpost lrank lallowed allocates b2n].
  - destruct (cell k _ s') eqn:C; simpl; rewrite ?C; repeat split; eauto with lia.
  - destruct (lock_held (EnvLock k) s) eqn:Lk; simplify_eq.
    rewrite cell_put_lock, lock_held_put_lock by done.
    repeat split; eauto using is_Some_alter with lia.
  - rewrite L by done.
    destruct (cell k _ s') eqn:C; simpl; rewrite ?C; repeat split; eauto with lia.
  - simpl in A. change (cell k Logger.__name__ (exec (OnHeap (New Logger.__name__)) s).2)
      with (cell k Logger.__name__ s). rewrite A. repeat split; eauto with lia.
  - simpl in A. change (cell k Logger.__name__ (exec (OnHeap NewList) s).2)
      with (cell k Logger.__name__ s). rewrite A. repeat split; eauto with lia.
  - simpl in A.
    change (cell k Logger.__name__ (exec (OnHeap (SetAttr o "logs" (VList l))) s).2)
      with (cell k Logger.__name__ s). rewrite A. repeat split; eauto with lia.
  - simpl in A. cbn [exec snd].
    rewrite cell_set_item_eq, lock_held_set_item, A by done.
    repeat split; eauto using is_Some_alter with lia.
  - rewrite cell_put_lock, lock_held_put_lock, L by done. simpl in A.
    repeat split; eauto using is_Some_alter with lia.
  - destruct A as [v Hv]. rewrite Hv. repeat split; eauto with lia.
Qed.
Lemma lallowed_cell s s' ph :
  cell k Logger.__name__ s' = cell k Logger.__name__ s ->
  lallowed k s ph -> lallowed k s' ph.
Proof. intros C. destruct ph; simpl; by rewrite ?C. Qed.

Lemma lallowed_outside s s' ph :
  cell k Logger.__name__ s = None -> lcrit ph = 0 ->
  lallowed k s ph -> lallowed k s' ph.
Proof.
  intros C. destruct ph; simpl; rewrite ?C; done.
Qed.

Lemma linv_step phs s t i ph ph' s' e :
  linv k phs s t -> phs !! i = Some ph -> lstep k ph s = Some (ph', s', e) ->
  linv k (<[i := ph']> phs) s' (t ++ [e]).
Proof.
  intros [E A H C R] Hi Hs.
  pose proof (weight_lookup lcrit phs i ph Hi) as Hc.
  destruct (lstep_local ph s ph' s' e Hs E (A i ph Hi))
    as (E' & A' & H' & C' & R' & Hcell).
  { intros Hc1. destruct (lock_held (EnvLock k) s); [done|]. simpl in H. lia. }
  pose proof (weight_insert lcrit phs i ph ph' Hi).
  pose proof (weight_insert lpost phs i ph ph' Hi).
  pose proof (weight_insert lrank phs i ph ph' Hi).
  split.
  - done.
  - intros j phj Hj. destruct (decide (i = j)) as [<-|Hij].
    + rewrite list_lookup_insert_eq in Hj by (by eapply lookup_lt_Some).
      by injection Hj as <-.
    + rewrite list_lookup_insert_ne in Hj by done.
      destruct Hcell as [Hcell|[Hnone Hcrit]].
      * eapply lallowed_cell; eauto.
      * eapply lallowed_outside; eauto.
        pose proof (weight_two lcrit phs i j ph phj Hij Hi Hj).
        destruct (lock_held (EnvLock k) s); simpl in H; lia.
  - lia.
  - rewrite count_snoc. lia.
  - rewrite length_app, length_insert. simpl. lia.
Qed.

Lemma linv_initial n s :
  cell k Logger.__name__ s = None ->
  lock_held (EnvLock k) s = false ->
  linv k (replicate n LStart) s [].
Proof.
  intros C L. split.
  - by apply lock_held_false_env.
  - by intros j ph [-> _]%lookup_replicate.
  - by rewrite weight_replicate, L, Nat.mul_0_r.
  - unfold loccupied. by rewrite weight_replicate, C, Nat.mul_0_r.
  - rewrite weight_replicate, length_replicate. simpl. lia.
Qed.

Lemma lfinished ph : finished (lcode k ph) = true ->
  (exists v, ph = LDone v) \/ (exists e, ph = LRaise e).
Proof. destruct ph; simpl; try done; eauto. Qed.

Lemma lstep_enabled ph s :
  lallowed k s ph ->
  finished (lcode k ph) = false ->
  ph <> LWait \/ lock_held (EnvLock k) s = false ->
  is_Some (lstep k ph s).
Proof.
  intros A F W. destruct ph; simpl in *; try done; try by eexists.
  destruct W as [?|W]; [done|]. rewrite W. by eexists.
Qed.

Lemma lcrit_enabled ph s : lcrit ph = 1 -> is_Some (lstep k ph s).
Proof. destruct ph; simpl; try done; by eexists. Qed.

Lemma lpost_crit ph : lpost ph <= lcrit ph.
Proof. destruct ph; simpl; lia. Qed.

(** What the invariant gives about a pool of callers of [Logger()]. *)
Lemma linv_facts phs s t :
  linv k phs s t ->
  count (allocates Logger.__name__) t <= 1
  /\ length t <= 9 * length phs
  /\ (forall i p, (lcode k <$> phs) !! i = Some p -> finished p = true ->
        exists v, p = Ret v /\ cell k Logger.__name__ s = Some v)
  /\ (completed (lcode k <$> phs) \/ exists l c, step (lcode k <$> phs, s) l c)
  /\ (completed (lcode k <$> phs) -> 0 < length phs ->
        count (allocates Logger.__name__) t = 1).
Proof.
  intros [E A H C R].
  assert (forall i p, (lcode k <$> phs) !! i = Some p -> finished p = true ->
        exists v, p = Ret v /\ cell k Logger.__name__ s = Some v) as Fin.
  { intros i p Hi Hf. rewrite list_lookup_fmap in Hi.
    destruct (phs !! i) as [ph|] eqn:Hph; [|done]. injection Hi as <-.
    apply A in Hph. destruct (lfinished ph Hf) as [[v ->]|[e ->]]; [|done].
    by exists v. }
  assert (count (allocates Logger.__name__) t <= 1) as Le.
  { rewrite C. unfold loccupied.
    pose proof (weight_mono lpost lcrit phs lpost_crit) as Hm.
    assert (weight lcrit phs <= 1) by (rewrite H; destruct (lock_held _ s); simpl; lia).
    destruct (cell k Logger.__name__ s) eqn:Hc; [|lia].
    destruct (weight lpost phs) as [|m] eqn:Hw; [lia|].
    destruct (weight_positive lpost phs) as (i & ph & Hi & Hp); [lia|].
    apply A in Hi. destruct ph; simpl in *; try lia; congruence. }
  split; [done|]. split; [lia|]. split; [done|]. split.
  - assert (forall ph, {finished (lcode k ph) = true} + {finished (lcode k ph) = false})
      as dec by (intros ph; destruct (finished (lcode k ph)); auto).
    destruct (Forall_Exists_dec _ _ dec phs) as [Hall|Hex].
    { left. unfold completed. by rewrite Forall_fmap. }
    right. apply Exists_exists in Hex as (ph & Hin & Hf).
    apply list_elem_of_lookup in Hin as [i Hi].
    destruct (lock_held (EnvLock k) s) eqn:Lk.
    + simpl in H.
      destruct (weight_positive lcrit phs) as (j & phj & Hj & Hp); [lia|].
      destruct (lcrit_enabled phj s) as [[[ph' s'] e] Hs].
      { destruct phj; simpl in *; lia. }
      by eapply (step_exists (lcode k) (lstep k) lcode_step).
    + destruct (lstep_enabled ph s) as [[[ph' s'] e] Hs]; eauto.
      by eapply (step_exists (lcode k) (lstep k) lcode_step).
  - intros Hall Hn. apply Nat.le_antisymm; [done|].
    destruct phs as [|ph phs]; [simpl in Hn; lia|].
    apply Forall_cons in Hall as [Hf _].
    destruct (Fin 0 (lcode k ph) eq_refl Hf) as (v & _ & Hv).
    rewrite C. unfold loccupied. rewrite Hv. lia.
Qed.
End LoggerThreads.

(** *** Racing callers of [DatabaseConnection()] *)

Lemma dcode_step ph s :
  thread_step (dcode ph) s
  = (fun '(ph', s', e) => (dcode ph', s', e)) <$> dstep ph s.
Proof.
  destruct ph; simpl; try done.
  - by destruct (is_None (_instance s)).
  - by destruct (_lock s).
  - by destruct (is_None (_instance s)).
  - by destruct (_instance s).
  - by destruct (bool_decide _).
  - by destruct (_initialized s).
Qed.

Lemma is_None_true v : is_None v = true -> v = VNone.
Proof. by destruct v. Qed.

Lemma dstep_local ph s ph' s' e :
  dstep ph s = Some (ph', s', e) ->
  dallowed s ph ->
  (dcrit ph = 1 -> _lock s = true) ->
  dallowed s' ph'
  /\ dcrit ph' + b2n (_lock s) = dcrit ph + b2n (_lock s')
  /\ b2n (allocates DatabaseConnection.__name__ e) + dpost ph + doccupied s
     = dpost ph' + doccupied s'
  /\ drank ph' < drank ph
  /\ (_instance s' = _instance s \/ (_instance s = VNone /\ dcrit ph = 1)).
Proof.
  intros Hs A L. unfold doccupied.
  destruct ph; cbn [dstep] in Hs; cbn [dcrit dpost drank dallowed] in *.
  - simplify_eq. destruct (is_None (_instance s')) eqn:N; simpl;
      repeat split; eauto with lia.
  - destruct (_lock s) eqn:Lk; simplify_eq. simpl. repeat split; eauto with lia.
  - simplify_eq. rewrite L by done.
    destruct (is_None (_instance s')) eqn:N; simpl; rewrite ?N;
      repeat split; eauto using is_None_true with lia.
  - simplify_eq. simpl. rewrite A, L by done. simpl. repeat split; eauto with lia.
  - simplify_eq. simpl. rewrite A, L by done. simpl. repeat split; eauto with lia.
  - simplify_eq. simpl. rewrite A, L by done. simpl. repeat split; eauto with lia.
  - simplify_eq. rewrite A.
    destruct (_instance s') eqn:I; simpl in *; rewrite ?I; repeat split; eauto with lia.
  - simplify_eq. simpl. rewrite A. case_bool_decide; simpl;
      repeat split; eauto with lia.
  - simplify_eq. rewrite A. destruct (_initialized s'); simpl;
      repeat split; eauto with lia.
  - simplify_eq. simpl. rewrite A. simpl. repeat split; eauto with lia.
  - simplify_eq. simpl. rewrite A. simpl. repeat split; eauto with lia.
  - simplify_eq. simpl. rewrite A. simpl. repeat split; eauto with lia.
  - done.
Qed.

Lemma dallowed_instance s s' ph :
  _instance s' = _instance s -> dallowed s ph -> dallowed s' ph.
Proof. intros C. destruct ph; simpl; by rewrite ?C. Qed.

Lemma dallowed_outside s s' ph :
  _instance s = VNone -> dcrit ph = 0 -> dallowed s ph -> dallowed s' ph.
Proof.
  intros C. destruct ph; simpl; rewrite ?C; try done. by intros _ [<- ?].
Qed.

Lemma dinv_step phs s t i ph ph' s' e :
  dinv phs s t -> phs !! i = Some ph -> dstep ph s = Some (ph', s', e) ->
  dinv (<[i := ph']> phs) s' (t ++ [e]).
Proof.
  intros [A H C R] Hi Hs.
  pose proof (weight_lookup dcrit phs i ph Hi) as Hc.
  destruct (dstep_local ph s ph' s' e Hs (A i ph Hi))
    as (A' & H' & C' & R' & Hcell).
  { intros Hc1. destruct (_lock s); [done|]. simpl in H. lia. }
  pose proof (weight_insert dcrit phs i ph ph' Hi).
  pose proof (weight_insert dpost phs i ph ph' Hi).
  pose proof (weight_insert drank phs i ph ph' Hi).
  split.
  - intros j phj Hj. destruct (decide (i = j)) as [<-|Hij].
    + rewrite list_lookup_insert_eq in Hj by (by eapply lookup_lt_Some).
      by injection Hj as <-.
    + rewrite list_lookup_insert_ne in Hj by done.
      destruct Hcell as [Hcell|[Hnone Hcrit]].
      * eapply dallowed_instance; eauto.
      * eapply dallowed_outside; eauto.
        pose proof (weight_two dcrit phs i j ph phj Hij Hi Hj).
        destruct (_lock s); simpl in H; lia.
  - lia.
  - rewrite count_snoc. lia.
  - rewrite length_app, length_insert. simpl. lia.
Qed.

Lemma dinv_initial n s :
  _instance s = VNone -> _lock s = false -> dinv (replicate n DStart) s [].
Proof.
  intros C L. split.
  - by intros j ph [-> _]%lookup_replicate.
  - by rewrite weight_replicate, L, Nat.mul_0_r.
  - unfold doccupied. by rewrite weight_replicate, C, Nat.mul_0_r.
  - rewrite weight_replicate, length_replicate. simpl. lia.
Qed.

Lemma dfinished ph : finished (dcode ph) = true -> exists v, ph = DDone v.
Proof. destruct ph; simpl; try done; eauto. Qed.





(** *** The instance that racing callers return is initialised *)

Lemma class_of_new o c c' s :
  class_of o s = Some c ->
  class_of o (exec (OnHeap (New c')) s).2 = Some c.
Proof.
  unfold class_of. simpl. intros H.
  destruct (objects (st_heap s) !! o) as [ob|] eqn:E; [|done].
  by rewrite (lookup_app_l_Some _ _ _ _ E).
Qed.

Lemma class_of_set_attr o c o' f v s :
  class_of o s = Some c ->
  class_of o (exec (OnHeap (SetAttr o' f v)) s).2 = Some c.
Proof.
  unfold class_of. simpl. intros H.
  destruct (decide (o' = o)) as [->|]; [|by rewrite list_lookup_alter_ne].
  rewrite list_lookup_alter_eq. by destruct (objects (st_heap s) !! o).
Qed.

Lemma attribute_new o f v c s :
  attribute o f s = Some v ->
  attribute o f (exec (OnHeap (New c)) s).2 = Some v.
Proof.
  unfold attribute. simpl. intros H.
  destruct (objects (st_heap s) !! o) as [ob|] eqn:E; [|done].
  by rewrite (lookup_app_l_Some _ _ _ _ E).
Qed.

Lemma attribute_set_attr_eq o f v c s :
  class_of o s = Some c ->
  attribute o f (exec (OnHeap (SetAttr o f v)) s).2 = Some v.
Proof.
  unfold class_of, attribute. simpl. intros H.
  rewrite list_lookup_alter_eq.
  destruct (objects (st_heap s) !! o) as [ob|]; [|done]. simpl.
  by rewrite lookup_insert_eq.
Qed.

Lemma attribute_set_attr o f v o' f' v' s :
  attribute o f s = Some v ->
  (o' = o -> f' = f -> v' = v) ->
  attribute o f (exec (OnHeap (SetAttr o' f' v')) s).2 = Some v.
Proof.
  unfold attribute. simpl. intros H Hsame.
  destruct (decide (o' = o)) as [->|]; [|by rewrite list_lookup_alter_ne].
  rewrite list_lookup_alter_eq.
  destruct (objects (st_heap s) !! o) as [ob|]; [|done]. simpl in *.
  destruct (decide (f' = f)) as [->|].
  - rewrite lookup_insert_eq. f_equal. by apply Hsame.
  - by rewrite lookup_insert_ne.
Qed.

(** What is known of the heap stays true when a thread moves. *)
Lemma dstep_stable ph s ph' s' e :
  dstep ph s = Some (ph', s', e) ->
  (forall o c, class_of o s = Some c -> class_of o s' = Some c)
  /\ (forall o, attribute o "connection_string" s = Some (VStr "localhost:5432") ->
        attribute o "connection_string" s' = Some (VStr "localhost:5432"))
  /\ (forall o, attribute o "connected" s = Some (VBool true) ->
        attribute o "connected" s' = Some (VBool true)).
Proof.
  intros Hs.
  destruct ph; cbn [dstep] in Hs;
    [|destruct (_lock s)|..]; simplify_eq;
    repeat split; intros; try done;
    first [by apply class_of_new | by apply attribute_new
          | by apply class_of_set_attr | by apply attribute_set_attr].
Qed.

Lemma dknows_stable ph s ph' s' e pj :
  dstep ph s = Some (ph', s', e) -> dknows s pj -> dknows s' pj.
Proof.
  intros (Hc & Hs & Hb)%dstep_stable. destruct pj; simpl; try done; eauto.
  - intros [? ?]. split; eauto.
  - intros (o & -> & ? & ?). exists o. repeat split; eauto.
Qed.

Lemma dheap_step phs s t i ph ph' s' e :
  dinv phs s t -> dheap phs s ->
  phs !! i = Some ph -> dstep ph s = Some (ph', s', e) ->
  dheap (<[i := ph']> phs) s'.
Proof.
  intros [A _ _ _] [O K I N] Hi Hs.
  pose proof (A i ph Hi) as Ai. pose proof (N i ph Hi) as Ni.
  pose proof (dstep_stable _ _ _ _ _ Hs) as (Sc & Ss & Sb).
  assert (dknows s' ph' /\
          (_instance s' = VNone \/ exists o, _instance s' = VObj o) /\
          (forall o, _instance s' = VObj o ->
             class_of o s' = Some DatabaseConnection.__name__) /\
          (_initialized s' = true ->
             exists o, _instance s' = VObj o /\ has_connection o s')) as (N' & O' & K' & I').
  { destruct ph; cbn [dstep] in Hs;
      [|destruct (_lock s) eqn:Lk|..]; simplify_eq; cbn [dallowed dknows] in *.
    - destruct (is_None (_instance s')); simpl; repeat split; eauto.
    - simpl. repeat split; eauto.
    - destruct (is_None (_instance s')); simpl; repeat split; eauto.
    - split; [unfold class_of; simpl; by rewrite lookup_last|].
      simpl. rewrite Ai. split; [by left|]. split; [done|].
      intros In. destruct (I In) as (o & Ho & _). congruence.
    - simpl. split; [done|]. split; [eauto|]. split; [by intros ? [= <-]|].
      intros In. destruct (I In) as (o' & Ho & _). congruence.
    - simpl. repeat split; eauto.
    - split; [|by eauto].
      destruct O as [Hn|[o Ho]]; [by rewrite Hn in Ai|]. by rewrite Ho.
    - simpl. rewrite with_heap_same. split; [|by eauto].
      case_bool_decide as Hc; [done|]. destruct Hc. apply (K _ Ai).
    - split; [|by eauto].
      destruct (_initialized s') eqn:In; [|done].
      destruct (I eq_refl) as (o' & Ho & Hf). rewrite Ai in Ho.
      injection Ho as <-. by exists o.
    - split; [by eapply attribute_set_attr_eq, K|]. simpl.
      split; [done|]. split.
      { intros o' Ho. by apply class_of_set_attr, K. }
      intros In. destruct (I In) as (o' & Ho & Hf1 & Hf2).
      exists o'. split; [done|]. split; by apply attribute_set_attr.
    - split.
      { split; [by apply attribute_set_attr|by eapply attribute_set_attr_eq, K]. }
      simpl. split; [done|]. split.
      { intros o' Ho. by apply class_of_set_attr, K. }
      intros In. destruct (I In) as (o' & Ho & Hf1 & Hf2).
      exists o'. split; [done|]. split; by apply attribute_set_attr.
    - simpl. split; [eauto|]. split; [done|]. split; [done|]. eauto.
  }
  split; try done.
  intros j pj Hj. destruct (decide (i = j)) as [<-|Hij].
  - rewrite list_lookup_insert_eq in Hj by (by eapply lookup_lt_Some).
    by injection Hj as <-.
  - rewrite list_lookup_insert_ne in Hj by done.
    eapply dknows_stable; eauto.
Qed.

(** Racing callers of [DatabaseConnection()] on an empty, uninitialised
    cell: whatever the interleaving, a caller that has returned holds the
    instance of the cell, and that instance has the attributes [__init__]
    assigns. No caller returns an instance that is not initialised. *)
Lemma racing_connections_attributes n s ts s' tr :
  _instance s = VNone -> _lock s = false -> _initialized s = false ->
  steps (replicate n (DatabaseConnection.call [] []), s) tr (ts, s') ->
  forall i p, ts !! i = Some p -> finished p = true ->
    exists o, p = Ret (VObj o) /\ _instance s' = VObj o /\ has_connection o s'.
Proof.
  intros C L In Hsteps.
  destruct (steps_invariant dcode dstep dcode_step
              (fun phs s t => dinv phs s t /\ dheap phs s))
    with (c := (replicate n (DatabaseConnection.call [] []), s))
         (tr := tr) (c' := (ts, s')) (phs := replicate n DStart) (t := @nil event)
    as (phs & E & _ & Inv & Hp); cbn [fst snd] in *; try done.
  { intros phs s0 t i ph ph' s1 e [Hi Hh] Hl Hs. split.
    - by eapply dinv_step.
    - by eapply dheap_step. }
  { by rewrite fmap_replicate. }
  { split; [by apply dinv_initial|]. split.
    - by left.
    - intros o Ho. congruence.
    - intros Ht. congruence.
    - by intros j ph [-> _]%lookup_replicate. }
  subst ts. intros i p Hi Hf. rewrite list_lookup_fmap in Hi.
  destruct (phs !! i) as [ph|] eqn:Hph; [|done]. injection Hi as <-.
  destruct (dfinished ph Hf) as [v ->].
  destruct (dheap_knows _ _ Hp _ _ Hph) as (o & -> & Hc).
  destruct (dinv_allowed _ _ _ Inv _ _ Hph) as [Hv _].
  by exists o.
Qed.

(** *** A scheduler, to build executions *)

Lemma schedule_steps order : forall ts s ts' s' tr,
  schedule order ts s = Some (ts', s', tr) -> steps (ts, s) tr (ts', s').
Proof.
  induction order as [|i order IH]; intros ts s ts' s' tr; simpl.
  - intros [= <- <- <-]. constructor.
  - destruct (ts !! i) as [p|] eqn:Hi; simpl; [|done].
    destruct (thread_step p s) as [[[p' s1] e]|] eqn:Hp; simpl; [|done].
    destruct (schedule order (<[i := p']> ts) s1) as [[[ts2 s2] tr2]|] eqn:Hs;
      simpl; [|done].
    intros [= <- <- <-]. eapply steps_next; [|by apply IH].
    by econstructor.
Qed.

(** *** Executions end *)

Lemma steps_snoc c tr c' l c'' :
  steps c tr c' -> step c' l c'' -> steps c (tr ++ [l]) c''.
Proof.
  induction 1 as [c|c l0 c1 ls c2 Hstep _ IH]; intros Hl; simpl.
  - eapply steps_next; [done|constructor].
  - eapply steps_next; [done|by apply IH].
Qed.

(** When no execution from [c] is longer than [bound], and none is stuck
    before every thread has finished, each execution from [c] can be
    continued until every thread has finished. *)
Lemma steps_complete c bound :
  (forall tr c', steps c tr c' ->
     length tr <= bound
     /\ (completed c'.1 \/ exists l c'', step c' l c'')) ->
  forall tr c', steps c tr c' ->
    exists tr' c'', steps c' tr' c'' /\ completed c''.1.
Proof.
  intros Hall tr c' Hsteps.
  remember (bound - length tr) as m eqn:Hm.
  revert tr c' Hsteps Hm. induction m as [m IH] using lt_wf_ind.
  intros tr c' Hsteps Hm.
  destruct (Hall tr c' Hsteps) as [Hlen [Hdone|(l & c'' & Hstep)]].
  - exists [], c'. split; [constructor|done].
  - pose proof (steps_snoc _ _ _ _ _ Hsteps Hstep) as Hsteps'.
    destruct (Hall _ _ Hsteps') as [Hlen' _].
    rewrite length_app in Hlen'. simpl in Hlen'.
    destruct (IH (bound - length (tr ++ [l]))) with (tr := tr ++ [l]) (c' := c'')
      as (tr' & c3 & Hrest & Hc); try done.
    { rewrite length_app. simpl. lia. }
    exists (l :: tr'), c3. split; [|done]. by eapply steps_next.
Qed.

(** *** The two races *)





(** The body of [__init__] is outside the lock: two racing callers can
    both find [_initialized] false, and both assign the attributes. *)
Lemma init_body_race :
  exists ts s' tr,
    schedule connection_race
      (replicate 2 (DatabaseConnection.call [] [])) module_state
    = Some (ts, s', tr)
    /\ completed ts
    /\ count (assigns "connection_string") tr.*2 = 2
    /\ attribute 0 "connection_string" s' = Some (VStr "localhost:5432").
Proof.
  eexists _, _, _. split; [reflexivity|]. split; [repeat constructor|].
  split; [reflexivity|]. unfold attribute; simpl. apply connection_attrs_string.
Qed.

(** ** The two semantics, and the demonstration of the module *)

(** The two semantics agree on what a program does next. *)
Lemma run_thread_step {A : Type} (p : prog op A) s :
  run p s =
    match thread_step p s with
    | Some (p', s', e) => let '(r, s'', t) := run p' s' in (r, s'', e :: t)
    | None =>
        (match p with
         | Ret a => Returned a
         | Throw e => Raised e
         | Vis _ _ => Blocked
         end, s, [])
    end.
Proof.
  destruct p as [a|e|X o k]; simpl; try done.
  destruct (enabled o s); [|done]. by destruct (exec o s).
Qed.

(** Decorating [Logger], then the first call [Logger()]. *)
Example decorate_logger :
  run (singleton Logger.class) module_state
  = (Returned (get_instance Logger.class 0), loaded_state, [Ev NewEnv]).
Proof. reflexivity. Qed.

Example first_logger :
  run (get_instance Logger.class 0 [] []) loaded_state
  = (Returned (VObj 0), logger_state,
     [Ev (Contains 0 "Logger"); Ev (Acquire (EnvLock 0)); Ev (Contains 0 "Logger");
      Ev (OnHeap (New "Logger")); Ev (OnHeap NewList);
      Ev (OnHeap (SetAttr 0 "logs" (VList 0)));
      Ev (SetItem 0 "Logger" (VObj 0)); Ev (Release (EnvLock 0));
      Ev (GetItem 0 "Logger")]).
Proof. reflexivity. Qed.

(** The demonstration at the end of the module: [db1 is db2], and what
    [get_connection_info] prints. *)
Example demonstration :
  let '(r, _, _) :=
    run (db1 <- DatabaseConnection.call [] [] ;;
         db2 <- DatabaseConnection.call [] [] ;;
         info <- DatabaseConnection.get_connection_info db1 ;;
         Ret (info, bool_decide (db1 = db2)))%prog module_state in
  r = Returned ("Connected to: localhost:5432, Status: True", true).
Proof. reflexivity. Qed.

(** ** Calls that find the cell occupied *)
Lemma fast_path_step cls k v p s p' s' e :
  cell k (cls_name cls) s = Some v ->
  on_fast_path cls k v p ->
  thread_step p s = Some (p', s', e) ->
  on_fast_path cls k v p' /\ s' = s /\ reads e = true
  /\ fast_rank p' < fast_rank p.
Proof.
  intros C. unfold cell in C. destruct 1; simpl; rewrite ?C; simpl.
  - intros [= <- <- <-]. repeat split; try constructor; simpl; lia.
  - intros [= <- <- <-]. repeat split; try constructor; simpl; lia.
  - done.
Qed.

Lemma fast_path_moves cls k v p s :
  on_fast_path cls k v p -> finished p = false -> is_Some (thread_step p s).
Proof. destruct 1; simpl; try done; by eexists. Qed.

Lemma fast_path_finished cls k v p :
  on_fast_path cls k v p -> finished p = true -> p = Ret v.
Proof. by destruct 1. Qed.


Lemma fast_path_steps cls k v c tr c' :
  steps c tr c' ->
  cell k (cls_name cls) c.2 = Some v ->
  Forall (on_fast_path cls k v) c.1 ->
  Forall (on_fast_path cls k v) c'.1
  /\ c'.2 = c.2
  /\ Forall (fun l => reads l.2 = true) tr
  /\ length tr + weight fast_rank c'.1 <= weight fast_rank c.1.
Proof.
  induction 1 as [c|c l c1 ls c2 Hstep _ IH]; intros C F.
  { repeat split; try done; simpl; lia. }
  destruct Hstep as [ts s i p p' s' e Hi Hp]. simpl in *.
  assert (on_fast_path cls k v p) as Fp by (by eapply Forall_lookup_1).
  destruct (fast_path_step _ _ _ _ _ _ _ _ C Fp Hp) as (Fp' & -> & Re & Rk).
  destruct IH as (F' & E' & R' & L'); [done|by apply Forall_insert|].
  pose proof (weight_insert fast_rank ts i p p' Hi).
  repeat split; try done; [by constructor|lia].
Qed.

Lemma weight_callers cls k al :
  weight fast_rank (callers cls k al) = 2 * length al.
Proof.
  induction al as [|c al IH]; [done|].
  change (2 + weight fast_rank (callers cls k al) = 2 * S (length al)).
  rewrite IH. lia.
Qed.

(** X1. Racing callers of a decorated class whose cell is occupied, each with
    its own arguments, and whatever the state of the lock: no caller
    touches the lock or writes anything (every action is a read and the
    memory stays as it was), a caller that has not returned can always
    move, an execution has at most two actions per caller, and what a
    caller returns is the cached instance. *)
Theorem occupied_cell_never_waits
    (cls : pyclass) (k : nat) (v : value) (al : list (args * kwargs))
    (s s' : state) (ts : list (prog op value)) (tr : list (nat * event)) :
  cell k (cls_name cls) s = Some v ->
  steps (callers cls k al, s) tr (ts, s') ->
  s' = s
  /\ Forall (fun l => reads l.2 = true) tr
  /\ length tr <= 2 * length al
  /\ (forall i p, ts !! i = Some p -> finished p = true -> p = Ret v)
  /\ (forall i p, ts !! i = Some p -> finished p = false ->
        exists e c, step (ts, s') (i, e) c).
Proof.
  intros C Hsteps.
  destruct (fast_path_steps cls k v _ _ _ Hsteps C) as (F & E & R & L).
  { apply Forall_fmap, Forall_forall. intros [a kw] _. constructor. }
  simpl in *. subst s'. rewrite weight_callers in L.
  split; [done|]. split; [done|]. split; [lia|]. split.
  - intros i p Hi Hf. eapply fast_path_finished; [|done].
    by eapply Forall_lookup_1.
  - intros i p Hi Hf.
    destruct (fast_path_moves cls k v p s) as [[[p' s'] e] Hp]; [|done|].
    { by eapply Forall_lookup_1. }
    eexists _, _. by econstructor.
Qed.

Lemma occupied_cell_never_waits_witness :
  exists ts tr,
    schedule [0; 1; 1; 0]
      (callers Logger.class 0 [([], []); ([VInt 1], [])]) logger_state_locked
    = Some (ts, logger_state_locked, tr)
    /\ Forall (fun l => reads l.2 = true) tr
    /\ ts = [Ret (VObj 0); Ret (VObj 0)].
Proof.
  destruct (schedule [0; 1; 1; 0]
              (callers Logger.class 0 [([], []); ([VInt 1], [])])
              logger_state_locked) as [[[ts s'] tr]|] eqn:E;
    [|by vm_compute in E].
  apply schedule_steps in E as Hsteps.
  destruct (occupied_cell_never_waits Logger.class 0 (VObj 0)
              [([], []); ([VInt 1], [])] logger_state_locked s' ts tr
              eq_refl Hsteps) as (-> & R & _ & _).
  exists ts, tr. split; [reflexivity|]. split; [exact R|].
  vm_compute in E. by injection E as <- _.
Defined.

Lemma fast_path_db_step o s ph ph' s' e :
  connection_ready o s -> on_fast_path_db o ph ->
  dstep ph s = Some (ph', s', e) ->
  on_fast_path_db o ph' /\ s' = s /\ reads e = true
  /\ dfast_rank ph' < dfast_rank ph.
Proof.
  intros (Hi & Hc & Hn) F. unfold class_of in Hc.
  destruct ph; simpl in F; try done; subst; simpl;
    rewrite ?Hi, ?Hn, ?Hc; simpl; intros [= <- <- <-];
    rewrite ?bool_decide_eq_true_2 by done;
    repeat split; simpl; try done; try lia.
  apply with_heap_same.
Qed.

(** X2. Racing callers of [DatabaseConnection()] once the instance is in the
    cell and [_initialized] is set, whatever the state of the lock: no
    caller touches the lock, allocates or assigns (every action is a read
    and the memory stays as it was), a caller that has not returned can
    always move, an execution has at most four actions per caller, and
    what a caller returns is the instance of the cell. *)
Theorem ready_connection_never_waits
    (n o : nat) (s s' : state) (ts : list (prog op value))
    (tr : list (nat * event)) :
  connection_ready o s ->
  steps (replicate n (DatabaseConnection.call [] []), s) tr (ts, s') ->
  s' = s
  /\ Forall (fun e => reads e = true) tr.*2
  /\ length tr <= 4 * n
  /\ (forall i p, ts !! i = Some p -> finished p = true -> p = Ret (VObj o))
  /\ (forall i p, ts !! i = Some p -> finished p = false ->
        exists e c, step (ts, s') (i, e) c).
Proof.
  intros R Hsteps.
  destruct (steps_invariant dcode dstep dcode_step
              (fun phs s0 t =>
                 s0 = s /\ Forall (on_fast_path_db o) phs
                 /\ Forall (fun e => reads e = true) t
                 /\ length t + weight dfast_rank phs <= 4 * n))
    with (c := (replicate n (DatabaseConnection.call [] []), s))
         (tr := tr) (c' := (ts, s')) (phs := replicate n DStart) (t := @nil event)
    as (phs & E & _ & Es & F & Rd & L); cbn [fst snd] in *; try done.
  { intros phs s0 t i ph ph' s1 e (-> & F & Rd & L) Hi Hs.
    destruct (fast_path_db_step o s ph ph' s1 e R) as (F' & -> & Re & Rk);
      [by eapply Forall_lookup_1|done|].
    pose proof (weight_insert dfast_rank phs i ph ph' Hi).
    split; [done|]. split; [by apply Forall_insert|].
    split; [apply Forall_app; by repeat constructor|].
    rewrite length_app. simpl. lia. }
  { by rewrite fmap_replicate. }
  { split; [done|]. split; [by apply Forall_replicate|]. split; [done|].
    rewrite weight_replicate. simpl. lia. }
  subst ts s'. simpl in *. rewrite length_fmap in L.
  split; [done|]. split; [done|]. split; [lia|]. split.
  - intros i p Hi Hf. rewrite list_lookup_fmap in Hi.
    destruct (phs !! i) as [ph|] eqn:Hph; [|done]. injection Hi as <-.
    destruct (dfinished ph Hf) as [v ->].
    pose proof (Forall_lookup_1 _ _ _ _ F Hph) as Fp. simpl in Fp. by subst.
  - intros i p Hi Hf. rewrite list_lookup_fmap in Hi.
    destruct (phs !! i) as [ph|] eqn:Hph; [|done]. injection Hi as <-.
    pose proof (Forall_lookup_1 _ _ _ _ F Hph) as Fp.
    assert (is_Some (dstep ph s)) as [[[ph' s1] e] Hp].
    { destruct ph; simpl in *; try done; by eexists. }
    exists e, (<[i := dcode ph']> (dcode <$> phs), s1).
    apply step_thread with (p := dcode ph).
    + by rewrite list_lookup_fmap, Hph.
    + by rewrite dcode_step, Hp.
Qed.

Lemma ready_connection_never_waits_witness :
  exists ts tr,
    schedule [0; 1; 0; 1; 1; 0; 0; 1]
      (replicate 2 (DatabaseConnection.call [] []))
      (with_lock (connected_state module_state) true)
    = Some (ts, with_lock (connected_state module_state) true, tr)
    /\ Forall (fun e => reads e = true) tr.*2
    /\ ts = [Ret (VObj 0); Ret (VObj 0)].
Proof.
  destruct (schedule [0; 1; 0; 1; 1; 0; 0; 1]
              (replicate 2 (DatabaseConnection.call [] []))
              (with_lock (connected_state module_state) true))
    as [[[ts s'] tr]|] eqn:E; [|by vm_compute in E].
  apply schedule_steps in E as Hsteps.
  destruct (ready_connection_never_waits 2 0
              (with_lock (connected_state module_state) true) s' ts tr)
    as (-> & R & _ & _); [by repeat split|exact Hsteps|].
  exists ts, tr. split; [reflexivity|]. split; [exact R|].
  vm_compute in E. by injection E as <- _.
Defined.

(** ** What a racing caller of [DatabaseConnection] is handed *)

Lemma connection_info_of o s :
  has_connection o s ->
  run (DatabaseConnection.get_connection_info (VObj o)) s
  = (Returned "Connected to: localhost:5432, Status: True", s,
     [Ev (OnHeap (GetAttr o "connection_string"));
      Ev (OnHeap (GetAttr o "connected"))]).
Proof.
  intros [H1 H2]. unfold attribute in *.
  unfold DatabaseConnection.get_connection_info. simpl.
  rewrite H1. simpl. rewrite with_heap_same, H2. simpl.
  by rewrite with_heap_same.
Qed.

(** X3. Racing callers of [DatabaseConnection()] on an empty, uninitialised
    cell: whatever the interleaving, a caller that has returned holds the
    instance of the cell, that instance has the two attributes [__init__]
    assigns, and [get_connection_info] on it returns the text of an open
    connection and changes nothing. No caller is handed an instance that
    is not initialised, though [__init__] runs outside the lock. *)
Theorem racing_connection_info
    (n : nat) (s s' : state) (ts : list (prog op value))
    (tr : list (nat * event)) :
  _instance s = VNone -> _lock s = false -> _initialized s = false ->
  steps (replicate n (DatabaseConnection.call [] []), s) tr (ts, s') ->
  forall i p, ts !! i = Some p -> finished p = true ->
    exists o,
      p = Ret (VObj o) /\ _instance s' = VObj o
      /\ attribute o "connection_string" s' = Some (VStr "localhost:5432")
      /\ attribute o "connected" s' = Some (VBool true)
      /\ run (DatabaseConnection.get_connection_info (VObj o)) s'
         = (Returned "Connected to: localhost:5432, Status: True", s',
            [Ev (OnHeap (GetAttr o "connection_string"));
             Ev (OnHeap (GetAttr o "connected"))]).
Proof.
  intros C L In Hsteps i p Hi Hf.
  destruct (racing_connections_attributes n s ts s' tr C L In Hsteps i p Hi Hf)
    as (o & -> & Ho & Hc).
  exists o. split; [done|]. split; [done|].
  split; [apply Hc|]. split; [apply Hc|]. by apply connection_info_of.
Qed.

Lemma racing_connection_info_witness :
  exists ts s' tr,
    schedule [0; 1; 1; 1; 1; 1; 1; 1; 1; 1; 1; 1; 1]
      (replicate 2 (DatabaseConnection.call [] [])) module_state
    = Some (ts, s', tr)
    /\ ts !! 1 = Some (Ret (VObj 0))
    /\ run (DatabaseConnection.get_connection_info (VObj 0)) s'
       = (Returned "Connected to: localhost:5432, Status: True", s',
          [Ev (OnHeap (GetAttr 0 "connection_string"));
           Ev (OnHeap (GetAttr 0 "connected"))]).
Proof.
  destruct (schedule [0; 1; 1; 1; 1; 1; 1; 1; 1; 1; 1; 1; 1]
              (replicate 2 (DatabaseConnection.call [] [])) module_state)
    as [[[ts s'] tr]|] eqn:E; [|by vm_compute in E].
  apply schedule_steps in E as Hsteps.
  assert (ts !! 1 = Some (Ret (VObj 0))) as H1.
  { vm_compute in E. by injection E as <- _ _. }
  exists ts, s', tr. split; [reflexivity|]. split; [exact H1|].
  destruct (racing_connection_info 2 module_state s' ts tr
              eq_refl eq_refl eq_refl Hsteps 1 (Ret (VObj 0)) H1 eq_refl)
    as (o & Ho & _ & _ & _ & R).
  injection Ho as <-. exact R.
Defined.

(** ** Racing callers of any decorated class *)

Section DecoratedThreads.
Variable cls : pyclass.
Variable k : nat.
Variable al : list (args * kwargs).

Lemma gcode_step ph s :
  thread_step (gcode cls k ph) s
  = (fun '(ph', s', e) => (gcode cls k ph', s', e)) <$> gstep cls k ph s.
Proof.
  destruct ph as [a kw|a kw|a kw|p| | |v|e]; simpl; unfold cell; try done.
  - by destruct (envs s !! k ≫= _).
  - destruct (envs s !! k) as [[? []]|]; done.
  - by destruct (envs s !! k ≫= _).
  - destruct p as [v|e|X o f]; simpl; try done.
    by destruct (exec_heap o (st_heap s)).
  - by destruct (envs s !! k ≫= _).
Qed.

Lemma gstep_local j ph s ph' s' e :
  gstep cls k ph s = Some (ph', s', e) ->
  is_Some (envs s !! k) ->
  gallowed cls k al s j ph ->
  (gcrit ph = 1 -> lock_held (EnvLock k) s = true) ->
  is_Some (envs s' !! k)
  /\ gallowed cls k al s' j ph'
  /\ gcrit ph' + b2n (lock_held (EnvLock k) s)
     = gcrit ph + b2n (lock_held (EnvLock k) s')
  /\ b2n (caches k (cls_name cls) e) + goccupied cls k s = goccupied cls k s'
  /\ (forall v, cell k (cls_name cls) s' = Some v ->
        cell k (cls_name cls) s = Some v
        \/ constructed cls al j (Returned v))
  /\ ((cell k (cls_name cls) s' = cell k (cls_name cls) s
       /\ st_heap s' = st_heap s)
      \/ (cell k (cls_name cls) s = None /\ gcrit ph = 1)).
Proof.
  intros Hs E A L. unfold goccupied.
  destruct ph as [a kw|a kw|a kw|p| | |v|e0]; cbn [gstep] in Hs;
    cbn [gcrit gallowed] in *.
  - injection Hs as <- <- <-. split; [done|].
    destruct (cell k _ s) eqn:C; simpl; rewrite ?C; repeat split; eauto with lia.
  - destruct (lock_held (EnvLock k) s) eqn:Lk; simplify_eq.
    rewrite cell_put_lock, lock_held_put_lock by done.
    split; [by apply is_Some_alter|]. simpl. repeat split; eauto with lia.
  - injection Hs as <- <- <-. split; [done|]. rewrite L by done.
    destruct (cell k _ s) eqn:C; simpl; rewrite ?C; repeat split; eauto with lia.
    exists a, kw, (st_heap s), []. split; [done|].
    by destruct (run_heap (construct cls a kw) (st_heap s)) as [[r h'] t].
  - destruct A as [C (a & kw & h0 & t0 & Ha & Hr)].
    destruct p as [v|e0|X o f].
    + simplify_eq. cbn [exec snd gallowed].
      rewrite !cell_set_item_eq, lock_held_set_item, C by done.
      split; [by apply is_Some_alter|]. simpl.
      rewrite bool_decide_eq_true_2 by done. simpl.
      repeat split; eauto with lia.
      intros v' [= <-]. right. exists a, kw, h0, (st_heap s), (t0 ++ []).
      by split.
    + simplify_eq.
      rewrite cell_put_lock, lock_held_put_lock, L, C by done.
      split; [by apply is_Some_alter|]. simpl. repeat split; eauto with lia.
      exists a, kw, h0, (st_heap s), (t0 ++ []). by split.
    + destruct (exec_heap o (st_heap s)) as [x h] eqn:Hx.
      simplify_eq.
      change (cell k (cls_name cls) (with_heap s h)) with (cell k (cls_name cls) s).
      change (lock_held (EnvLock k) (with_heap s h)) with (lock_held (EnvLock k) s).
      rewrite C. split; [done|]. simpl. repeat split; eauto with lia.
      exists a, kw, h0, (t0 ++ [Ev (OnHeap o)]). split; [done|].
      rewrite Hr. cbn [run_heap]. rewrite Hx.
      destruct (run_heap (f x) h) as [[r h'] t]. by rewrite <- app_assoc.
  - simplify_eq. cbn [gallowed].
    rewrite !cell_put_lock, lock_held_put_lock, L by done.
    split; [by apply is_Some_alter|]. simpl. destruct A as [v Hv]. rewrite Hv.
    repeat split; eauto with lia.
  - injection Hs as <- <- <-. split; [done|]. destruct A as [v Hv]. rewrite Hv.
    simpl. repeat split; eauto with lia.
  - done.
  - done.
Qed.

Lemma gallowed_same s s' j ph :
  cell k (cls_name cls) s' = cell k (cls_name cls) s ->
  st_heap s' = st_heap s ->
  gallowed cls k al s j ph -> gallowed cls k al s' j ph.
Proof. intros C H. destruct ph; simpl; by rewrite ?C, ?H. Qed.

Lemma gallowed_outside s s' j ph :
  cell k (cls_name cls) s = None -> gcrit ph = 0 ->
  gallowed cls k al s j ph -> gallowed cls k al s' j ph.
Proof. intros C. destruct ph; simpl; rewrite ?C; try done; by intros _ []. Qed.

Lemma ginv_step phs s t i ph ph' s' e :
  ginv cls k al phs s t -> phs !! i = Some ph ->
  gstep cls k ph s = Some (ph', s', e) ->
  ginv cls k al (<[i := ph']> phs) s' (t ++ [e]).
Proof.
  intros [E A H C B] Hi Hs.
  pose proof (weight_lookup gcrit phs i ph Hi) as Hc.
  destruct (gstep_local i ph s ph' s' e Hs E (A i ph Hi))
    as (E' & A' & H' & C' & B' & Hcell).
  { intros Hc1. destruct (lock_held (EnvLock k) s); [done|]. simpl in H. lia. }
  pose proof (weight_insert gcrit phs i ph ph' Hi).
  split.
  - done.
  - intros j phj Hj. destruct (decide (i = j)) as [<-|Hij].
    + rewrite list_lookup_insert_eq in Hj by (by eapply lookup_lt_Some).
      by injection Hj as <-.
    + rewrite list_lookup_insert_ne in Hj by done.
      destruct Hcell as [[Hcell Hheap]|[Hnone Hcrit]].
      * eapply gallowed_same; eauto.
      * eapply gallowed_outside; eauto.
        pose proof (weight_two gcrit phs i j ph phj Hij Hi Hj).
        destruct (lock_held (EnvLock k) s); simpl in H; lia.
  - lia.
  - rewrite count_snoc. lia.
  - intros v Hv. destruct (B' v Hv) as [Hold|Hnew]; [by apply B|by exists i].
Qed.

Lemma ginv_initial s :
  cell k (cls_name cls) s = None ->
  lock_held (EnvLock k) s = false ->
  ginv cls k al ((fun c => GStart c.1 c.2) <$> al) s [].
Proof.
  intros C L. split.
  - by apply lock_held_false_env.
  - intros j ph Hj. rewrite list_lookup_fmap in Hj.
    destruct (al !! j) as [[a kw]|] eqn:Ha; [|done]. by injection Hj as <-.
  - rewrite L. simpl.
    assert (forall l : list (args * kwargs),
              weight gcrit ((fun c => GStart c.1 c.2) <$> l) = 0) as W.
    { intros l. induction l as [|c l IH]; [done|]. exact IH. }
    apply W.
  - unfold goccupied. by rewrite C.
  - intros v Hv. congruence.
Qed.

End DecoratedThreads.

Lemma steps_trans c tr c' tr' c'' :
  steps c tr c' -> steps c' tr' c'' -> steps c (tr ++ tr') c''.
Proof.
  induction 1 as [c|c l c1 ls c2 Hstep _ IH]; intros H; simpl; [done|].
  eapply steps_next; [done|by apply IH].
Qed.

Lemma weight_fmap {A B : Type} (g : A -> B) (f : B -> nat) l :
  weight f (g <$> l) = weight (fun a => f (g a)) l.
Proof. induction l as [|a l IH]; [done|]. cbn [fmap list_fmap weight]. by f_equal. Qed.



Section DecoratedCompletion.
Variable cls : pyclass.
Variable k : nat.
Variable al : list (args * kwargs).













End DecoratedCompletion.



(** ** Mutual exclusion *)

Section Exclusion.
Context {Ph : Type}.
Variable code : Ph -> prog op value.
Variable pstep : Ph -> state -> option (Ph * state * event).
Hypothesis code_step : forall ph s,
  thread_step (code ph) s = (fun '(ph', s', e) => (code ph', s', e)) <$> pstep ph s.
Variable crit : Ph -> nat.
Variable l : lock_id.
Variable guarded : event -> bool.
Variable I : list Ph -> state -> list event -> Prop.
Hypothesis I_step : forall phs s t i ph ph' s' e,
  I phs s t -> phs !! i = Some ph -> pstep ph s = Some (ph', s', e) ->
  I (<[i := ph']> phs) s' (t ++ [e]).
Hypothesis I_lock : forall phs s t,
  I phs s t -> weight crit phs = b2n (lock_held l s).
Hypothesis pstep_event : forall ph s ph' s' e,
  pstep ph s = Some (ph', s', e) ->
  (acquires l e = true /\ crit ph = 0 /\ crit ph' = 1 /\ lock_held l s = false)
  \/ (acquires l e = false /\ releases l e = true /\ crit ph = 1 /\ crit ph' = 0)
  \/ (acquires l e = false /\ releases l e = false /\ crit ph' = crit ph
      /\ (guarded e = true -> crit ph = 1)).

Lemma owns_critical phs s t i ph owner :
  I phs s t -> phs !! i = Some ph -> crit ph = 1 ->
  owns crit phs owner -> owner = Some i.
Proof.
  intros Inv Hi Hc O. apply I_lock in Inv.
  assert (weight crit phs <= 1) as W by (destruct (lock_held l s); simpl in Inv; lia).
  destruct owner as [j|]; simpl in O.
  - destruct O as (phj & Hj & Hcj). destruct (decide (j = i)) as [->|Hij]; [done|].
    pose proof (weight_two crit phs j i phj ph Hij Hj Hi). lia.
  - pose proof (weight_lookup crit phs i ph Hi). lia.
Qed.

Lemma exclusive_steps c tr c' :
  steps c tr c' ->
  forall phs t owner, c.1 = code <$> phs -> I phs c.2 t ->
    owns crit phs owner ->
    exclusive l guarded owner tr = true.
Proof.
  induction 1 as [c|c [i e] c' ls c'' Hstep _ IH]; intros phs t owner Hc Inv O.
  { done. }
  destruct c as [ts s], c' as [ts' s']. simpl in Hc, Inv. subst ts.
  apply (step_phases code pstep code_step) in Hstep as (ph & ph' & Hi & Hp & ->).
  pose proof (I_step _ _ _ _ _ _ _ _ Inv Hi Hp) as Inv'.
  pose proof (I_lock _ _ _ Inv) as W.
  pose proof (weight_insert crit phs i ph ph' Hi) as Wi.
  assert (i < length phs) as Hlt by (by eapply lookup_lt_Some).
  cbn [exclusive].
  destruct (pstep_event _ _ _ _ _ Hp)
    as [(Ha & Hc & Hc' & Lk)|[(Ha & Hr & Hc & Hc')|(Ha & Hr & Hc & Hg)]];
    rewrite Ha; [|rewrite Hr..].
  - rewrite Lk in W. simpl in W.
    assert (owner = None) as ->.
    { destruct owner as [j|]; [|done]. destruct O as (phj & Hj & Hcj).
      pose proof (weight_lookup crit phs j phj Hj). lia. }
    rewrite bool_decide_eq_true_2 by done. simpl.
    apply (IH (<[i := ph']> phs) (t ++ [e]) (Some i) eq_refl Inv').
    exists ph'. split; [by apply list_lookup_insert_eq|done].
  - rewrite (owns_critical phs s t i ph owner Inv Hi Hc O).
    rewrite bool_decide_eq_true_2 by done. simpl.
    apply (IH (<[i := ph']> phs) (t ++ [e]) None eq_refl Inv').
    simpl. destruct (lock_held l s); simpl in W; lia.
  - assert (negb (guarded e) || bool_decide (owner = Some i) = true) as ->.
    { destruct (guarded e); [|done]. simpl.
      rewrite (owns_critical phs s t i ph owner Inv Hi (Hg eq_refl) O).
      by rewrite bool_decide_eq_true_2. }
    simpl. apply (IH (<[i := ph']> phs) (t ++ [e]) owner eq_refl Inv').
    destruct owner as [j|]; simpl in *.
    + destruct O as (phj & Hj & Hcj). destruct (decide (j = i)) as [->|Hij].
      * exists ph'. split; [by apply list_lookup_insert_eq|].
        rewrite Hi in Hj. injection Hj as <-. lia.
      * exists phj. by rewrite list_lookup_insert_ne.
    + lia.
Qed.
End Exclusion.

Lemma gstep_event cls k ph s ph' s' e :
  gstep cls k ph s = Some (ph', s', e) ->
  (acquires (EnvLock k) e = true /\ gcrit ph = 0 /\ gcrit ph' = 1
   /\ lock_held (EnvLock k) s = false)
  \/ (acquires (EnvLock k) e = false /\ releases (EnvLock k) e = true
      /\ gcrit ph = 1 /\ gcrit ph' = 0)
  \/ (acquires (EnvLock k) e = false /\ releases (EnvLock k) e = false
      /\ gcrit ph' = gcrit ph
      /\ (guarded_by_decorator cls k e = true -> gcrit ph = 1)).
Proof.
  intros Hs. destruct ph as [a kw|a kw|a kw|p| | |v|e0]; cbn [gstep] in Hs.
  - injection Hs as <- <- <-. right. right.
    destruct (cell _ _ _); simpl; by repeat split.
  - destruct (lock_held (EnvLock k) s) eqn:Lk; [done|]. injection Hs as <- _ <-.
    left. cbn [acquires releases gcrit dcrit]. by rewrite bool_decide_eq_true_2.
  - injection Hs as <- <- <-. right. right.
    destruct (cell _ _ _); simpl; by repeat split.
  - destruct p as [v|e0|X o f].
    + injection Hs as <- _ <-. right. right. simpl. by repeat split.
    + injection Hs as <- _ <-. right. left. cbn [acquires releases gcrit dcrit].
      by rewrite bool_decide_eq_true_2.
    + destruct (exec_heap o (st_heap s)) as [x h]. injection Hs as <- _ <-.
      right. right. simpl. by repeat split.
  - injection Hs as <- _ <-. right. left. cbn [acquires releases gcrit dcrit]. by rewrite bool_decide_eq_true_2.
  - injection Hs as <- <- <-. right. right.
    destruct (cell _ _ _); simpl; by repeat split.
  - done.
  - done.
Qed.

Lemma dstep_event ph s ph' s' e :
  dstep ph s = Some (ph', s', e) ->
  (acquires ClassLock e = true /\ dcrit ph = 0 /\ dcrit ph' = 1
   /\ lock_held ClassLock s = false)
  \/ (acquires ClassLock e = false /\ releases ClassLock e = true
      /\ dcrit ph = 1 /\ dcrit ph' = 0)
  \/ (acquires ClassLock e = false /\ releases ClassLock e = false
      /\ dcrit ph' = dcrit ph
      /\ (guarded_by_class e = true -> dcrit ph = 1)).
Proof.
  intros Hs. destruct ph; cbn [dstep] in Hs.
  - injection Hs as <- <- <-. right. right.
    destruct (is_None _); simpl; by repeat split.
  - simpl. destruct (_lock s) eqn:Lk; [done|]. injection Hs as <- _ <-.
    left. cbn [acquires releases gcrit dcrit]. by rewrite bool_decide_eq_true_2.
  - injection Hs as <- <- <-. right. right.
    destruct (is_None _); simpl; by repeat split.
  - injection Hs as <- _ <-. right. right. simpl. by repeat split.
  - injection Hs as <- _ <-. right. right. simpl. by repeat split.
  - injection Hs as <- _ <-. right. left. cbn [acquires releases gcrit dcrit]. by rewrite bool_decide_eq_true_2.
  - injection Hs as <- <- <-. right. right.
    destruct (_instance s); simpl; by repeat split.
  - injection Hs as <- _ <-. right. right.
    case_bool_decide; simpl; by repeat split.
  - injection Hs as <- <- <-. right. right.
    destruct (_initialized s); simpl; by repeat split.
  - injection Hs as <- _ <-. right. right. simpl. by repeat split.
  - injection Hs as <- _ <-. right. right. simpl. by repeat split.
  - injection Hs as <- _ <-. right. right. simpl. by repeat split.
  - done.
Qed.

(** X5. Callers of a decorated class race on an empty cell, each with its
    own arguments. In every execution the lock of the decorator is taken
    only when it is free and released only by the caller that took it,
    and every action of a constructor and every assignment of the cell
    is taken by the caller that holds the lock: no two constructors run
    at the same time, and none runs outside the lock. *)
Theorem decorated_mutual_exclusion
    (cls : pyclass) (k : nat) (al : list (args * kwargs))
    (s s' : state) (ts : list (prog op value)) (tr : list (nat * event)) :
  cell k (cls_name cls) s = None ->
  lock_held (EnvLock k) s = false ->
  steps (callers cls k al, s) tr (ts, s') ->
  exclusive (EnvLock k) (guarded_by_decorator cls k) None tr = true.
Proof.
  intros C L Hsteps.
  eapply (exclusive_steps (gcode cls k) (gstep cls k) (gcode_step cls k) gcrit
            (EnvLock k) (guarded_by_decorator cls k) (ginv cls k al)
            (ginv_step cls k al))
    with (phs := (fun c => GStart c.1 c.2) <$> al) (t := []); try done.
  - intros phs s0 t Inv. apply Inv.
  - apply gstep_event.
  - unfold callers. cbn [fst]. by rewrite <- list_fmap_compose.
  - by apply ginv_initial.
  - pose proof (ginv_initial cls k al s C L) as Inv.
    destruct Inv as [_ _ W _ _]. rewrite L in W. exact W.
Qed.

(** X6. Callers of [DatabaseConnection()] race on an empty cell. In every
    execution [_lock] is taken only when it is free and released only by
    the caller that took it, and [object.__new__] and the assignment of
    [_instance] are made by the caller that holds the lock. *)
Theorem connection_mutual_exclusion
    (n : nat) (s s' : state) (ts : list (prog op value))
    (tr : list (nat * event)) :
  _instance s = VNone ->
  _lock s = false ->
  steps (replicate n (DatabaseConnection.call [] []), s) tr (ts, s') ->
  exclusive ClassLock guarded_by_class None tr = true.
Proof.
  intros C L Hsteps.
  eapply (exclusive_steps dcode dstep dcode_step dcrit ClassLock
            guarded_by_class dinv dinv_step)
    with (phs := replicate n DStart) (t := []); try done.
  - intros phs s0 t Inv. apply Inv.
  - apply dstep_event.
  - cbn [fst]. by rewrite fmap_replicate.
  - by apply dinv_initial.
  - simpl. by rewrite weight_replicate, Nat.mul_0_r.
Qed.

Lemma decorated_mutual_exclusion_witness :
  exists ts s' tr,
    schedule [0; 1; 0; 0; 0; 0; 1; 1; 1; 1; 1; 1; 1; 1]
      (callers Logger.class 0 [([VInt 1], []); ([], [])]) loaded_state
    = Some (ts, s', tr)
    /\ length tr = 14
    /\ exclusive (EnvLock 0) (guarded_by_decorator Logger.class 0) None tr = true.
Proof.
  destruct (schedule [0; 1; 0; 0; 0; 0; 1; 1; 1; 1; 1; 1; 1; 1]
              (callers Logger.class 0 [([VInt 1], []); ([], [])]) loaded_state)
    as [[[ts s'] tr]|] eqn:E; [|by vm_compute in E].
  apply schedule_steps in E as Hsteps.
  exists ts, s', tr. split; [reflexivity|]. split.
  - vm_compute in E. by injection E as _ _ <-.
  - exact (decorated_mutual_exclusion Logger.class 0
             [([VInt 1], []); ([], [])] loaded_state s' ts tr
             eq_refl eq_refl Hsteps).
Defined.

Lemma connection_mutual_exclusion_witness :
  exists ts s' tr,
    schedule connection_race
      (replicate 2 (DatabaseConnection.call [] [])) module_state
    = Some (ts, s', tr)
    /\ length tr = 22
    /\ exclusive ClassLock guarded_by_class None tr = true.
Proof.
  destruct (schedule connection_race
              (replicate 2 (DatabaseConnection.call [] [])) module_state)
    as [[[ts s'] tr]|] eqn:E; [|by vm_compute in E].
  apply schedule_steps in E as Hsteps.
  exists ts, s', tr. split; [reflexivity|]. split.
  - vm_compute in E. by injection E as _ _ <-.
  - exact (connection_mutual_exclusion 2 module_state s' ts tr
             eq_refl eq_refl Hsteps).
Defined.

(** ** The body of [__init__] under a race *)

Lemma drun_steps m : forall ph s ph' s' t phs i,
  drun m ph s = Some (ph', s', t) -> phs !! i = Some ph ->
  steps (dcode <$> phs, s) ((fun e => (i, e)) <$> t)
        (dcode <$> <[i := ph']> phs, s').
Proof.
  induction m as [|m IH]; intros ph s ph' s' t phs i Hr Hi; simpl in Hr.
  { injection Hr as <- <- <-. rewrite list_insert_id by done. constructor. }
  destruct (dstep ph s) as [[[ph1 s1] e]|] eqn:Hs; [|done]. simpl in Hr.
  destruct (drun m ph1 s1) as [[[ph2 s2] t2]|] eqn:Hr2; [|done].
  injection Hr as <- <- <-. simpl.
  apply steps_next with (c' := (dcode <$> <[i := ph1]> phs, s1)).
  - rewrite list_fmap_insert.
    apply step_thread with (p := dcode ph).
    + by rewrite list_lookup_fmap, Hi.
    + by rewrite dcode_step, Hs.
  - rewrite <- (list_insert_insert_eq phs i ph2 ph1).
    apply (IH ph1 s1 ph2 s2 t2); [done|].
    apply list_lookup_insert_eq. by eapply lookup_lt_Some.
Qed.

Lemma lookup_boundary {A : Type} (x y : A) a m :
  (replicate a x ++ replicate (S m) y) !! a = Some y.
Proof. induction a as [|a IH]; [done|]. exact IH. Qed.

Lemma insert_boundary {A : Type} (x y : A) a m :
  <[a := x]> (replicate a x ++ replicate (S m) y)
  = replicate (S a) x ++ replicate m y.
Proof. induction a as [|a IH]; [done|]. simpl in *. by rewrite IH. Qed.

(** The first caller, from an empty cell, up to the body of [__init__]. *)
Lemma drun_first s :
  _instance s = VNone -> _lock s = false -> _initialized s = false ->
  exists s' t,
    drun 9 DStart s
    = Some (DSetString (length (objects (st_heap s))), s', t)
    /\ connection_fresh (length (objects (st_heap s))) s'
    /\ count (assigns "connection_string") t = 0
    /\ count (assigns "connected") t = 0
    /\ count (allocates DatabaseConnection.__name__) t = 1.
Proof.
  intros C L In. destruct s as [h i l b es]. simpl in *. subst.
  eexists _, _. split.
  { cbn [drun dstep is_None _instance _lock _initialized st_heap with_lock
         with_instance with_heap exec exec_heap snd mbind option_bind objects].
    rewrite lookup_last. simpl. reflexivity. }
  split; [|by split].
  split; [done|]. split; [|done]. unfold class_of. simpl. by rewrite lookup_last.
Qed.

(** A later caller, up to the body of [__init__]: it finds the instance,
    and [_initialized] still false. *)
Lemma drun_later o s :
  connection_fresh o s ->
  drun 4 DStart s
  = Some (DSetString o, s,
          [Ev LoadInstance; Ev LoadInstance; Ev (OnHeap (ClassOf o));
           Ev LoadInitialized]).
Proof.
  intros (C & K & In). unfold class_of in K.
  cbn [drun dstep mbind option_bind]. rewrite C. cbn [is_None mbind option_bind dstep].
  rewrite C. cbn [mbind option_bind dstep]. rewrite K.
  rewrite bool_decide_eq_true_2 by done.
  cbn [exec exec_heap snd mbind option_bind dstep]. rewrite with_heap_same, In.
  reflexivity.
Qed.

Lemma drun_body o s :
  drun 3 (DSetString o) s
  = Some (DDone (VObj o),
          with_initialized
            (snd (exec (OnHeap (SetAttr o "connected" (VBool true)))
               (snd (exec (OnHeap (SetAttr o "connection_string"
                                     (VStr "localhost:5432"))) s)))) true,
          [Ev (OnHeap (SetAttr o "connection_string" (VStr "localhost:5432")));
           Ev (OnHeap (SetAttr o "connected" (VBool true)));
           Ev (StoreInitialized true)]).
Proof. reflexivity. Qed.

Lemma race_to_body o m : forall a s,
  connection_fresh o s ->
  exists tr,
    steps (dcode <$> (replicate a (DSetString o) ++ replicate m DStart), s) tr
          (dcode <$> replicate (a + m) (DSetString o), s)
    /\ count (assigns "connection_string") tr.*2 = 0
    /\ count (assigns "connected") tr.*2 = 0
    /\ count (allocates DatabaseConnection.__name__) tr.*2 = 0.
Proof.
  induction m as [|m IH]; intros a s F.
  { exists []. rewrite app_nil_r, Nat.add_0_r. split; [constructor|done]. }
  destruct (IH (S a) s F) as (tr & Hsteps & C1 & C2 & C3).
  pose proof (drun_steps 4 DStart s _ _ _
                (replicate a (DSetString o) ++ replicate (S m) DStart) a
                (drun_later o s F) (lookup_boundary _ _ a m)) as Hfirst.
  rewrite insert_boundary in Hfirst.
  eexists. split.
  - eapply steps_trans; [exact Hfirst|].
    replace (a + S m) with (S a + m) by lia. exact Hsteps.
  - rewrite fmap_app, !count_app, C1, C2, C3.
    rewrite <- list_fmap_compose. simpl. done.
Qed.

Lemma race_in_body o m : forall a s,
  exists tr s',
    steps (dcode <$> (replicate a (DDone (VObj o)) ++ replicate m (DSetString o)), s)
          tr (dcode <$> replicate (a + m) (DDone (VObj o)), s')
    /\ count (assigns "connection_string") tr.*2 = m
    /\ count (assigns "connected") tr.*2 = m
    /\ count (allocates DatabaseConnection.__name__) tr.*2 = 0.
Proof.
  induction m as [|m IH]; intros a s.
  { exists [], s. rewrite app_nil_r, Nat.add_0_r. split; [constructor|done]. }
  pose proof (drun_steps 3 (DSetString o) s _ _ _
                (replicate a (DDone (VObj o)) ++ replicate (S m) (DSetString o)) a
                (drun_body o s) (lookup_boundary _ _ a m)) as Hfirst.
  rewrite insert_boundary in Hfirst.
  destruct (IH (S a) (with_initialized
            (snd (exec (OnHeap (SetAttr o "connected" (VBool true)))
               (snd (exec (OnHeap (SetAttr o "connection_string"
                                     (VStr "localhost:5432"))) s)))) true))
    as (tr & s' & Hsteps & C1 & C2 & C3).
  eexists _, s'. split.
  - eapply steps_trans; [exact Hfirst|].
    replace (a + S m) with (S a + m) by lia. exact Hsteps.
  - rewrite fmap_app, !count_app, C1, C2, C3.
    rewrite <- list_fmap_compose. simpl. done.
Qed.

(** X7. The body of [__init__] is outside the lock, and [_initialized] is
    read before it is set: [n] racing callers of [DatabaseConnection()] on
    an empty cell can each find [_initialized] false. There is an
    execution in which all return and each of the two attributes is
    assigned [n] times, once by every caller. *)
Theorem init_body_in_every_caller (n : nat) (s : state) :
  _instance s = VNone -> _lock s = false -> _initialized s = false ->
  exists tr s',
    steps (replicate n (DatabaseConnection.call [] []), s) tr
          (replicate n (Ret (VObj (length (objects (st_heap s))))), s')
    /\ count (assigns "connection_string") tr.*2 = n
    /\ count (assigns "connected") tr.*2 = n
    /\ count (allocates DatabaseConnection.__name__) tr.*2 = min n 1.
Proof.
  intros C L In. destruct n as [|n].
  { exists [], s. split; [constructor|done]. }
  destruct (drun_first s C L In) as (s1 & t1 & R1 & F1 & A1 & B1 & D1).
  remember (length (objects (st_heap s))) as o eqn:Ho. clear Ho.
  pose proof (drun_steps 9 DStart s _ _ _ (replicate (S n) DStart) 0 R1 eq_refl)
    as H1.
  destruct (race_to_body o n 1 s1 F1) as (tr2 & H2 & A2 & B2 & D2).
  destruct (race_in_body o (S n) 0 s1) as (tr3 & s3 & H3 & A3 & B3 & D3).
  exists (((fun e => (0, e)) <$> t1) ++ tr2 ++ tr3), s3.
  split.
  - assert (replicate (S n) (DatabaseConnection.call [] [])
            = dcode <$> replicate (S n) DStart) as ->
      by (by rewrite fmap_replicate).
    assert (replicate (S n) (Ret (VObj o))
            = dcode <$> replicate (S n) (DDone (VObj o))) as ->
      by (by rewrite fmap_replicate).
    eapply steps_trans; [exact H1|].
    eapply steps_trans; [exact H2|]. exact H3.
  - rewrite !fmap_app, !count_app, A2, A3, B2, B3, D2, D3.
    rewrite <- list_fmap_compose.
    change (snd ∘ (fun e : event => (0, e))) with (@id event).
    rewrite list_fmap_id, A1, B1, D1. simpl. repeat split; lia.
Qed.

Lemma init_body_in_every_caller_witness :
  exists tr s',
    steps (replicate 3 (DatabaseConnection.call [] []), module_state) tr
          (replicate 3 (Ret (VObj 0)), s')
    /\ count (assigns "connection_string") tr.*2 = 3
    /\ count (assigns "connected") tr.*2 = 3.
Proof.
  destruct (init_body_in_every_caller 3 module_state eq_refl eq_refl eq_refl)
    as (tr & s' & H & A & B & _).
  exists tr, s'. split; [exact H|]. split; [exact A|exact B].
Defined.

(** ** Locks over a sequence of calls *)






(** ** The list that [get_logs] returns *)

Lemma logging_append k o l ms v s :
  logging k o l ms s ->
  run (lift (append (VList l) v)) s
  = (Returned tt, snd (exec (OnHeap (Append l v)) s), [Ev (OnHeap (Append l v))])
  /\ logging k o l (ms ++ [v]) (snd (exec (OnHeap (Append l v)) s)).
Proof.
  intros (C & A & M). split; [done|].
  split; [done|]. split; [done|].
  unfold list_content in *. simpl. by rewrite list_lookup_alter_eq, M.
Qed.

(** X9. [get_logs] returns the list of the logger itself, not a copy. A
    client that appends to the list it was given changes the log: a later
    [log] adds its message after the client's, and a later [get_logs]
    returns the same list, which holds both. *)
Theorem get_logs_returns_the_log
    (k o l : nat) (ms : list value) (v m : value) (s : state) :
  logging k o l ms s ->
  exists s' t,
    run (h <- Logger.get_logs (VObj o) ;;
         lift (append h v) ;;
         Logger.log (VObj o) m ;;
         h' <- Logger.get_logs (VObj o) ;;
         Ret (h, h'))%prog s
    = (Returned (VList l, VList l), s', t)
    /\ list_content l s' = Some (ms ++ [v; m])
    /\ cell k Logger.__name__ s' = Some (VObj o).
Proof.
  intros Lg.
  destruct (logging_append k o l ms v s Lg) as [Ra Lg1].
  destruct (run_log k o l (ms ++ [v]) m _ Lg1) as (s2 & Rl & Lg2).
  eexists s2, _.
  rewrite run_bind, (run_get_logs k o l ms s Lg).
  rewrite run_bind, Ra, run_bind, Rl.
  rewrite run_bind, (run_get_logs k o l _ s2 Lg2). cbn [run].
  split; [reflexivity|].
  destruct Lg2 as (C & _ & M). rewrite <- app_assoc in M. by split.
Qed.

Lemma get_logs_returns_the_log_witness :
  exists s' t,
    run (h <- Logger.get_logs (VObj 0) ;;
         lift (append h (VStr "client")) ;;
         Logger.log (VObj 0) (VStr "logger") ;;
         h' <- Logger.get_logs (VObj 0) ;;
         Ret (h, h'))%prog logger_state
    = (Returned (VList 0, VList 0), s', t)
    /\ list_content 0 s' = Some ([] ++ [VStr "client"; VStr "logger"])
    /\ cell 0 Logger.__name__ s' = Some (VObj 0).
Proof.
  apply (get_logs_returns_the_log 0 0 0 [] (VStr "client") (VStr "logger")
           logger_state).
  by repeat split.
Defined.

(** ** Racing calls of [log] *)

Lemma omap_insert_none {A B : Type} (f : A -> option B) (l : list A) (i : nat) x y :
  l !! i = Some x -> f x = None -> f y = None ->
  omap f (<[i := y]> l) = omap f l.
Proof.
  revert i. induction l as [|a l IH]; intros [|i] Hi Hx Hy; simpl in *; try done.
  - injection Hi as ->. by rewrite Hx, Hy.
  - change (list_omap A B f) with (omap (M:=list) f). by rewrite (IH i Hi Hx Hy).
Qed.

Lemma omap_insert_some {A B : Type} (f : A -> option B) (l : list A) (i : nat) x y b :
  l !! i = Some x -> f x = None -> f y = Some b ->
  omap f (<[i := y]> l) ≡ₚ b :: omap f l.
Proof.
  revert i. induction l as [|a l IH]; intros [|i] Hi Hx Hy; simpl in *; try done.
  - injection Hi as ->. by rewrite Hx, Hy.
  - change (list_omap A B f) with (omap (M:=list) f).
    pose proof (IH i Hi Hx Hy) as P. destruct (f a); [|done].
    rewrite P. apply Permutation_swap.
Qed.

Section LogThreads.
Variable o l : nat.
Variable ms : list value.

Lemma pcode_step ph s :
  thread_step (pcode o ph) s
  = (fun '(ph', s', e) => (pcode o ph', s', e)) <$> pstep o ph s.
Proof.
  destruct ph as [m|m l'|m|m e]; simpl; try done.
  unfold attribute. destruct (objects (st_heap s) !! o ≫= _) as [[]|]; simpl;
    by rewrite ?with_heap_same.
Qed.

Lemma pinv_step phs s t i ph ph' s' e :
  pinv o l ms phs s t -> phs !! i = Some ph ->
  pstep o ph s = Some (ph', s', e) ->
  pinv o l ms (<[i := ph']> phs) s' (t ++ [e]).
Proof.
  intros [A C Al Lg R] Hi Hs.
  pose proof (weight_insert prank phs i ph ph' Hi) as W.
  pose proof (Al i ph Hi) as Ai.
  assert (i < length phs) as Hlt by (by eapply lookup_lt_Some).
  destruct ph as [m|m l'|m|m e0]; simpl in Hs; try done.
  - injection Hs as <- <- <-. rewrite A in *. split; try done.
    + unfold appended. rewrite omap_app. simpl. by rewrite app_nil_r.
    + intros j phj Hj. destruct (decide (i = j)) as [<-|Hij].
      * rewrite list_lookup_insert_eq in Hj by done. by injection Hj as <-.
      * rewrite list_lookup_insert_ne in Hj by done. by eapply Al.
    + unfold appended. rewrite omap_app. simpl. rewrite app_nil_r.
      by rewrite (omap_insert_none plogged phs i (PStart m) (PAppend m l)).
    + rewrite length_app, length_insert. simpl in *. lia.
  - injection Hs as <- <- <-. subst l'. split.
    + done.
    + unfold list_content in *. simpl. rewrite list_lookup_alter_eq, C. simpl.
      unfold appended. rewrite omap_app. simpl. rewrite decide_True by done.
      by rewrite app_assoc.
    + intros j phj Hj. destruct (decide (i = j)) as [<-|Hij].
      * rewrite list_lookup_insert_eq in Hj by done. by injection Hj as <-.
      * rewrite list_lookup_insert_ne in Hj by done. by eapply Al.
    + unfold appended. rewrite omap_app. simpl. rewrite decide_True by done.
      rewrite (omap_insert_some plogged phs i (PAppend m l) (PDone m) m) by done.
      fold (appended l t). rewrite <- Lg. by rewrite <- Permutation_cons_append.
    + rewrite length_app, length_insert. simpl in *. lia.
Qed.

Lemma pinv_initial k msgs s :
  logging k o l ms s -> pinv o l ms (PStart <$> msgs) s [].
Proof.
  intros (C & A & M). split.
  - done.
  - by rewrite app_nil_r.
  - intros j ph Hj. rewrite list_lookup_fmap in Hj.
    destruct (msgs !! j); [|done]. by injection Hj as <-.
  - simpl. induction msgs as [|m msgs' IH]; [done|]. exact IH.
  - simpl. rewrite length_fmap.
    assert (weight prank (PStart <$> msgs) = 2 * length msgs) as ->; [|lia].
    induction msgs as [|m msgs' IH]; [done|].
    change (2 + weight prank (PStart <$> msgs') = 2 * S (length msgs')).
    rewrite IH. lia.
Qed.

Lemma pinv_messages phs : forall msgs,
  pmsg <$> phs = msgs ->
  Forall (fun ph => finished (pcode o ph) = true) phs ->
  (forall j ph, phs !! j = Some ph ->
     match ph with PFail _ _ => False | _ => True end) ->
  omap plogged phs = msgs.
Proof.
  induction phs as [|ph phs IH]; intros msgs E F Al.
  { by rewrite <- E. }
  apply Forall_cons in F as [Hf F]. rewrite fmap_cons in E. subst msgs.
  pose proof (Al 0 ph eq_refl) as A0.
  change (omap plogged (ph :: phs))
    with (match plogged ph with
          | Some y => y :: omap plogged phs
          | None => omap plogged phs
          end).
  rewrite (IH (pmsg <$> phs) eq_refl F (fun j => Al (S j))).
  by destruct ph.
Qed.
End LogThreads.

Lemma pmsg_step o ph s ph' s' e :
  pstep o ph s = Some (ph', s', e) -> pmsg ph' = pmsg ph.
Proof.
  destruct ph; simpl; try done; intros [= <- _ _]; [|done].
  by destruct (attribute o "logs" s) as [[]|].
Qed.

Lemma pstep_envs o ph s ph' s' e :
  pstep o ph s = Some (ph', s', e) -> envs s' = envs s.
Proof. destruct ph; simpl; try done; by intros [= _ <- _]. Qed.

Lemma pfinished o ph :
  finished (pcode o ph) = true ->
  (exists m, ph = PDone m) \/ (exists m e, ph = PFail m e).
Proof. destruct ph; simpl; try done; eauto. Qed.

Lemma racing_logs k o l ms msgs s ts s' tr :
  logging k o l ms s ->
  steps (log_call (VObj o) <$> msgs, s) tr (ts, s') ->
  logging k o l (ms ++ appended l tr.*2) s'
  /\ length tr <= 2 * length msgs
  /\ (forall i p, ts !! i = Some p -> finished p = true -> p = Ret VNone)
  /\ (completed ts -> appended l tr.*2 ≡ₚ msgs)
  /\ (completed ts \/ exists l c, step (ts, s') l c).
Proof.
  intros Lg Hsteps.
  destruct (steps_invariant (pcode o) (pstep o) (pcode_step o)
              (fun phs s0 t =>
                 pinv o l ms phs s0 t /\ pmsg <$> phs = msgs
                 /\ cell k Logger.__name__ s0 = Some (VObj o)))
    with (c := (log_call (VObj o) <$> msgs, s)) (tr := tr) (c' := (ts, s'))
         (phs := PStart <$> msgs) (t := @nil event)
    as (phs & E & Len & Inv & Hm & Hc); cbn [fst snd app] in *; try done.
  { intros phs s0 t i ph ph' s1 e (Inv & Hm & Hc) Hi Hs.
    split; [by eapply pinv_step|]. split.
    - rewrite list_fmap_insert, (pmsg_step _ _ _ _ _ _ Hs).
      rewrite list_insert_id; [done|]. by rewrite list_lookup_fmap, Hi.
    - unfold cell in *. by rewrite (pstep_envs _ _ _ _ _ _ Hs). }
  { by rewrite <- list_fmap_compose. }
  { split; [by eapply pinv_initial|]. split; [|apply Lg].
    by rewrite <- list_fmap_compose, list_fmap_id. }
  subst ts. rewrite length_fmap in Len.
  destruct Inv as [A C Al Lgd R].
  assert (length phs = length msgs) as Hlen by (by rewrite <- Hm, length_fmap).
  split; [by repeat split|]. split.
  { rewrite <- (length_fmap snd tr). lia. }
  split.
  { intros i p Hi Hf. rewrite list_lookup_fmap in Hi.
    destruct (phs !! i) as [ph|] eqn:Hph; [|done]. injection Hi as <-.
    apply Al in Hph. by destruct ph. }
  split.
  { intros Hall. unfold completed in Hall. rewrite Forall_fmap in Hall.
    rewrite Lgd. rewrite (pinv_messages o phs msgs Hm Hall); [done|].
    intros j ph Hj. apply Al in Hj. by destruct ph. }
  assert (forall ph, {finished (pcode o ph) = true} + {finished (pcode o ph) = false})
    as dec by (intros ph; destruct (finished (pcode o ph)); auto).
  destruct (Forall_Exists_dec _ _ dec phs) as [Hall|Hex].
  { left. unfold completed. by rewrite Forall_fmap. }
  right. apply Exists_exists in Hex as (ph & Hin & Hf).
  apply list_elem_of_lookup in Hin as [i Hi].
  assert (is_Some (pstep o ph s')) as [[[ph' s1] e] Hs].
  { destruct ph; simpl in *; try done; by eexists. }
  by eapply (step_exists (pcode o) (pstep o) (pcode_step o)).
Qed.

(** X10. Threads race to call [log] on the one logger, each with its own
    message; [self.logs] is read in one action and [append] is one
    action. In every execution, whatever the interleaving: the list holds
    what it held, followed by the messages appended so far in the order of
    the appends; no call raises; an execution has at most two actions
    per call; every execution can be continued until all calls have
    returned; and when
    all have returned the messages added are those of the callers, each
    once, in some order. No message is lost, and none is logged twice. *)
Theorem racing_log_calls
    (k o l : nat) (ms msgs : list value)
    (s s' : state) (ts : list (prog op value)) (tr : list (nat * event)) :
  logging k o l ms s ->
  steps (log_call (VObj o) <$> msgs, s) tr (ts, s') ->
  logging k o l (ms ++ appended l tr.*2) s'
  /\ length tr <= 2 * length msgs
  /\ (forall i p, ts !! i = Some p -> finished p = true -> p = Ret VNone)
  /\ (completed ts -> appended l tr.*2 ≡ₚ msgs)
  /\ (exists tr' ts'' s'', steps (ts, s') tr' (ts'', s'') /\ completed ts'').
Proof.
  intros Lg Hsteps.
  destruct (racing_logs k o l ms msgs s ts s' tr Lg Hsteps)
    as (F1 & F2 & F3 & F4 & F5).
  split; [done|]. split; [done|]. split; [done|]. split; [done|].
  destruct (steps_complete (log_call (VObj o) <$> msgs, s) (2 * length msgs))
    with (tr := tr) (c' := (ts, s'))
    as (tr' & [ts'' s''] & Hrest & Hc); [|done|by exists tr', ts'', s''].
  intros tr0 [ts0 s0] H0.
  destruct (racing_logs k o l ms msgs s ts0 s0 tr0 Lg H0) as (_ & G2 & _ & _ & G5).
  done.
Qed.

Lemma racing_log_calls_witness :
  exists ts s' tr,
    schedule [1; 0; 1; 0]
      (log_call (VObj 0) <$> [VStr "first"; VStr "second"]) logger_state
    = Some (ts, s', tr)
    /\ ts = [Ret VNone; Ret VNone]
    /\ list_content 0 s' = Some [VStr "second"; VStr "first"].
Proof.
  destruct (schedule [1; 0; 1; 0]
              (log_call (VObj 0) <$> [VStr "first"; VStr "second"]) logger_state)
    as [[[ts s'] tr]|] eqn:E; [|by vm_compute in E].
  apply schedule_steps in E as Hsteps.
  destruct (racing_log_calls 0 0 0 [] [VStr "first"; VStr "second"]
              logger_state s' ts tr) as ((_ & _ & C) & _);
    [by repeat split|exact Hsteps|].
  exists ts, s', tr. split; [reflexivity|].
  assert (tr.*2 = [Ev (OnHeap (GetAttr 0 "logs")); Ev (OnHeap (GetAttr 0 "logs"));
                   Ev (OnHeap (Append 0 (VStr "second")));
                   Ev (OnHeap (Append 0 (VStr "first")))]) as Ht.
  { vm_compute in E. by injection E as _ _ <-. }
  split.
  - vm_compute in E. by injection E as <- _ _.
  - rewrite C, Ht. reflexivity.
Defined.

(** ** What a racing caller of [Logger()] is handed *)

Section LoggerHeap.
Variable k : nat.

Lemma lstep_outside ph s ph' s' e :
  lstep k ph s = Some (ph', s', e) -> lcrit ph = 0 ->
  st_heap s' = st_heap s
  /\ cell k Logger.__name__ s' = cell k Logger.__name__ s
  /\ lknows s' ph'.
Proof.
  intros Hs Hc. destruct ph; cbn [lstep] in Hs; try done.
  - injection Hs as <- <- <-. repeat split. by destruct (cell _ _ _).
  - destruct (lock_held (EnvLock k) s); simplify_eq.
    by rewrite cell_put_lock.
  - injection Hs as <- <- <-. repeat split. by destruct (cell _ _ _).
Qed.

Lemma lknows_heap s s' ph :
  st_heap s' = st_heap s -> lknows s ph -> lknows s' ph.
Proof.
  intros H. destruct ph; simpl; try done;
    unfold class_of, attribute, empty_list, list_content; by rewrite H.
Qed.

Lemma lknows_critical s ph : ~ lknows s ph \/ lcrit ph = 1 \/ forall s', lknows s' ph.
Proof. destruct ph; simpl; auto. Qed.

Lemma lheap_step content phs s t i ph ph' s' e :
  linv k phs s t -> lheap k content phs s ->
  (cell k Logger.__name__ s = None -> content = []) ->
  phs !! i = Some ph -> lstep k ph s = Some (ph', s', e) ->
  lheap k content (<[i := ph']> phs) s'.
Proof.
  intros Inv [Hcell Hk] Hnone Hi Hs.
  pose proof (linv_allowed _ _ _ _ Inv i ph Hi) as Ai.
  pose proof (linv_lock _ _ _ _ Inv) as W.
  pose proof (linv_env _ _ _ _ Inv) as E.
  pose proof (Hk i ph Hi) as Ki.
  assert (weight lcrit phs <= 1) as W1
    by (destruct (lock_held (EnvLock k) s); simpl in W; lia).
  assert (lknows s' ph'
          /\ (forall v, cell k Logger.__name__ s' = Some v ->
                exists o l, v = VObj o /\ logging k o l content s')
          /\ (lcrit ph = 0 -> st_heap s' = st_heap s)) as (K' & C' & H').
  { destruct (lcrit ph) eqn:Hc.
    { destruct (lstep_outside _ _ _ _ _ Hs Hc) as (Hh & Hcl & Hkn).
      split; [done|]. split; [|done]. intros v Hv.
      destruct (Hcell v) as (o & l & -> & Hv' & Ha & Hl); [by rewrite <- Hcl|].
      exists o, l. split; [done|].
      unfold logging, attribute, list_content in *. by rewrite Hh. }
    destruct ph; cbn [lstep] in Hs; try done; cbn [lallowed lknows] in *.
    - injection Hs as <- <- <-. split; [by destruct (cell _ _ _)|]. by split.
    - injection Hs as <- <- <-. split; [|split; [|done]].
      + simpl. unfold class_of. simpl. by rewrite lookup_last.
      + intros v Hv. change (cell k Logger.__name__ s = Some v) in Hv.
        congruence.
    - injection Hs as <- <- <-. split; [|split; [|done]].
      + simpl. split; [done|]. unfold empty_list, list_content. simpl.
        by rewrite lookup_last.
      + intros v Hv. change (cell k Logger.__name__ s = Some v) in Hv.
        congruence.
    - injection Hs as <- <- <-. destruct Ki as [Kc Kl]. split; [|split; [|done]].
      + exists l. split; [by eapply attribute_set_attr_eq|done].
      + intros v Hv. change (cell k Logger.__name__ s = Some v) in Hv.
        congruence.
    - injection Hs as <- <- <-. split; [done|]. split; [|done].
      cbn [exec snd]. intros v Hv. pose proof Hv as Hv'.
      rewrite cell_set_item_eq in Hv by done. injection Hv as <-.
      destruct Ki as (l & Ha & Hl). exists o, l. split; [done|].
      rewrite (Hnone Ai). by repeat split.
    - simplify_eq. split; [done|]. split; [|done].
      intros v Hv. rewrite cell_put_lock in Hv.
      destruct (Hcell v Hv) as (o & l & -> & C0 & Ha & Hl). exists o, l.
      split; [done|]. split; [by rewrite cell_put_lock|]. by split. }
  split; [done|].
  intros j phj Hj. destruct (decide (i = j)) as [<-|Hij].
  - rewrite list_lookup_insert_eq in Hj by (by eapply lookup_lt_Some).
    by injection Hj as <-.
  - rewrite list_lookup_insert_ne in Hj by done.
    pose proof (Hk j phj Hj) as Kj.
    destruct (lknows_critical s phj) as [N|[Hcj|Any]]; [done| |apply Any].
    pose proof (weight_two lcrit phs i j ph phj Hij Hi Hj).
    apply (lknows_heap s); [|done]. apply H'.
    destruct ph; simpl in *; lia.
Qed.
End LoggerHeap.

(** X11. Racing callers of [Logger()] on an empty cell: whatever the
    interleaving, a caller that has returned holds the logger of the
    cell, whose [logs] is a list, empty while no one logs; [get_logs] on
    the handle returns that list and changes nothing. No caller is handed
    a logger before its constructor has finished. *)
Theorem racing_loggers_initialised
    (n k : nat) (s s' : state) (ts : list (prog op value))
    (tr : list (nat * event)) :
  cell k Logger.__name__ s = None ->
  lock_held (EnvLock k) s = false ->
  steps (replicate n (get_instance Logger.class k [] []), s) tr (ts, s') ->
  forall i p, ts !! i = Some p -> finished p = true ->
    exists o l,
      p = Ret (VObj o)
      /\ logging k o l [] s'
      /\ run (Logger.get_logs (VObj o)) s'
         = (Returned (VList l), s', [Ev (OnHeap (GetAttr o "logs"))]).
Proof.
  intros C L Hsteps.
  destruct (steps_invariant (lcode k) (lstep k) (lcode_step k)
              (fun phs s t => linv k phs s t /\ lheap k [] phs s))
    with (c := (replicate n (get_instance Logger.class k [] []), s))
         (tr := tr) (c' := (ts, s')) (phs := replicate n LStart) (t := @nil event)
    as (phs & E & _ & Inv & Hp); cbn [fst snd] in *; try done.
  { intros phs s0 t i ph ph' s1 e [Hi Hh] Hl Hs. split.
    - by eapply linv_step.
    - by eapply lheap_step. }
  { by rewrite fmap_replicate. }
  { split; [by apply linv_initial|]. split.
    - intros v Hv. congruence.
    - by intros j ph [-> _]%lookup_replicate. }
  subst ts. intros i p Hi Hf. rewrite list_lookup_fmap in Hi.
  destruct (phs !! i) as [ph|] eqn:Hph; [|done]. injection Hi as <-.
  pose proof (linv_allowed _ _ _ _ Inv _ _ Hph) as A.
  destruct (lfinished k ph Hf) as [[v ->]|[e ->]]; [|done]. simpl in A.
  destruct (lheap_cell _ _ _ _ Hp v A) as (o & l & -> & Lg).
  exists o, l. split; [done|]. split; [done|]. by eapply run_get_logs.
Qed.

Lemma racing_loggers_initialised_witness :
  exists ts s' tr,
    schedule [0; 1; 0; 0; 0; 0; 0; 0; 0; 0]
      (replicate 2 (get_instance Logger.class 0 [] [])) loaded_state
    = Some (ts, s', tr)
    /\ ts !! 0 = Some (Ret (VObj 0))
    /\ run (Logger.get_logs (VObj 0)) s'
       = (Returned (VList 0), s', [Ev (OnHeap (GetAttr 0 "logs"))]).
Proof.
  destruct (schedule [0; 1; 0; 0; 0; 0; 0; 0; 0; 0]
              (replicate 2 (get_instance Logger.class 0 [] [])) loaded_state)
    as [[[ts s'] tr]|] eqn:E; [|by vm_compute in E].
  apply schedule_steps in E as Hsteps.
  assert (ts !! 0 = Some (Ret (VObj 0))) as H0.
  { vm_compute in E. by injection E as <- _ _. }
  exists ts, s', tr. split; [reflexivity|]. split; [exact H0|].
  destruct (racing_loggers_initialised 2 0 loaded_state s' ts tr
              eq_refl eq_refl Hsteps 0 (Ret (VObj 0)) H0 eq_refl)
    as (o & l & Ho & (_ & Ha & _) & R).
  injection Ho as <-.
  assert (attribute 0 "logs" s' = Some (VList 0)) as Ha'.
  { vm_compute in E. by injection E as _ <- _. }
  rewrite Ha in Ha'. injection Ha' as ->. exact R.
Defined.

(** ** Clients that obtain the logger and log *)

Lemma thread_step_bind {A B : Type} (p : prog op A) (f : A -> prog op B) s :
  thread_step (bind p f) s =
    match p with
    | Ret a => thread_step (f a) s
    | Throw _ => None
    | Vis _ _ => (fun '(p', s', e) => (bind p' f, s', e)) <$> thread_step p s
    end.
Proof.
  destruct p as [a|e|X o g]; simpl; try done.
  destruct (enabled o s); [|done]. by destruct (exec o s).
Qed.

Section LoggerClients.
Variable k : nat.

Lemma ccode_cget ph m :
  (h <- lcode k ph ;; log_call h m)%prog = ccode k (cget ph m).
Proof. destruct ph as [| | | | | | | | |v|]; try done. by destruct v. Qed.

Lemma cstep_get ph m s :
  finished (lcode k ph) = false ->
  cstep k (CGet ph m) s
  = (fun '(ph', s', e) => (cget ph' m, s', e)) <$> lstep k ph s.
Proof. by destruct ph. Qed.

Lemma ccode_step ph s :
  thread_step (ccode k ph) s
  = (fun '(ph', s', e) => (ccode k ph', s', e)) <$> cstep k ph s.
Proof.
  destruct ph as [ph m|o ph].
  - destruct (finished (lcode k ph)) eqn:Hf.
    + destruct ph as [| | | | | | | | |v|e]; try done.
      destruct v as [| | | |o|]; try done.
      change (thread_step (pcode o (PStart m)) s
              = (fun '(ph', s', e) => (ccode k ph', s', e))
                  <$> ((fun '(ph', s', e) => (CLog o ph', s', e))
                         <$> pstep o (PStart m) s)).
      rewrite (pcode_step o (PStart m) s).
      by destruct (pstep o (PStart m) s) as [[[ph' s'] e]|].
    + rewrite cstep_get by done. cbn [ccode].
      rewrite thread_step_bind.
      assert (match lcode k ph with
              | Ret a => thread_step (log_call a m) s
              | Throw _ => None
              | Vis _ _ =>
                  (fun '(p', s', e) => (bind p' (fun h => log_call h m), s', e))
                    <$> thread_step (lcode k ph) s
              end
              = (fun '(p', s', e) => (bind p' (fun h => log_call h m), s', e))
                  <$> thread_step (lcode k ph) s) as ->.
      { by destruct (lcode k ph). }
      rewrite lcode_step.
      destruct (lstep k ph s) as [[[ph' s'] e]|]; [|done]. simpl.
      by rewrite ccode_cget.
  - cbn [ccode cstep]. rewrite pcode_step.
    by destruct (pstep o ph s) as [[[ph' s'] e]|].
Qed.

Lemma cproj_cget ph m : cproj (cget ph m) = ph.
Proof. destruct ph as [| | | | | | | | |v|]; try done. by destruct v. Qed.

Lemma clogged_cget ph m : clogged (cget ph m) = None.
Proof. destruct ph as [| | | | | | | | |v|]; try done. by destruct v. Qed.

Lemma cmsg_cget ph m : cmsg (cget ph m) = m.
Proof. destruct ph as [| | | | | | | | |v|]; try done. by destruct v. Qed.

Lemma crank_cget ph m : crank (cget ph m) = 2.
Proof. destruct ph as [| | | | | | | | |v|]; try done. by destruct v. Qed.

Lemma lstep_logs_value ph s ph' s' e :
  lstep k ph s = Some (ph', s', e) -> logs_value e = None.
Proof.
  destruct ph; cbn [lstep]; try done;
    try destruct (lock_held (EnvLock k) s); by intros [= _ _ <-].
Qed.

Lemma pstep_allocates o ph s ph' s' e :
  pstep o ph s = Some (ph', s', e) -> allocates Logger.__name__ e = false.
Proof. destruct ph; simpl; try done; by intros [= _ _ <-]. Qed.

Lemma lstep_cell_none ph s ph' s' e :
  lstep k ph s = Some (ph', s', e) -> is_Some (envs s !! k) ->
  cell k Logger.__name__ s' = None -> cell k Logger.__name__ s = None.
Proof.
  intros Hs E. destruct ph; cbn [lstep] in Hs; try done;
    try destruct (lock_held (EnvLock k) s); simplify_eq;
    rewrite ?cell_put_lock; try done.
  all: cbn [exec snd]; rewrite ?cell_set_item_eq by done; done.
Qed.

Lemma lstep_heap ph s ph' s' e :
  lstep k ph s = Some (ph', s', e) -> lallowed k s ph ->
  objects (st_heap s') = objects (st_heap s)
  \/ cell k Logger.__name__ s = None.
Proof.
  intros Hs A. destruct ph; cbn [lstep] in Hs; try done;
    try destruct (lock_held (EnvLock k) s); simplify_eq; auto.
Qed.

Lemma linv_envs phs s s' t :
  envs s' = envs s -> linv k phs s t -> linv k phs s' t.
Proof.
  intros E [Ev A H C R].
  assert (forall c, cell k c s' = cell k c s) as Hc
    by (intros c; unfold cell; by rewrite E).
  split.
  - by rewrite E.
  - intros j ph Hj. eapply lallowed_cell; [apply Hc|]. by eapply A.
  - simpl in *. by rewrite E.
  - unfold loccupied in *. by rewrite Hc.
  - done.
Qed.

Lemma logged_snoc t e :
  logged (t ++ [e]) = logged t ++ match logs_value e with Some v => [v] | None => [] end.
Proof. unfold logged. rewrite omap_app. simpl. by destruct (logs_value e). Qed.

Lemma cinv_step msgs phs s t i ph ph' s' e :
  cinv k msgs phs s t -> phs !! i = Some ph ->
  cstep k ph s = Some (ph', s', e) ->
  cinv k msgs (<[i := ph']> phs) s' (t ++ [e]).
Proof.
  intros [(tg & Inv & Ca & Rk) Hh Hn Hk Lg Hm] Hi Hs.
  assert (i < length phs) as Hlt by (by eapply lookup_lt_Some).
  assert ((cproj <$> phs) !! i = Some (cproj ph)) as Hpi
    by (by rewrite list_lookup_fmap, Hi).
  pose proof (linv_allowed _ _ _ _ Inv _ _ Hpi) as Ai.
  pose proof (Hk i ph Hi) as Ki.
  pose proof (weight_insert crank phs i ph ph' Hi) as Wr.
  destruct ph as [ph m|o ph].
  - (* a step of [Logger()] *)
    simpl in Ki. rewrite cstep_get in Hs by done.
    destruct (lstep k ph s) as [[[ph1 s1] e1]|] eqn:Hl; [|done].
    injection Hs as <- <- <-. simpl in Hpi, Ai.
    pose proof (lstep_logs_value _ _ _ _ _ Hl) as Hv.
    assert (logged (t ++ [e1]) = logged t) as Hlog
      by (by rewrite logged_snoc, Hv, app_nil_r).
    assert (cproj <$> <[i := cget ph1 m]> phs = <[i := ph1]> (cproj <$> phs)) as Hproj
      by (by rewrite list_fmap_insert, cproj_cget).
    pose proof (linv_step k _ _ _ _ _ _ _ _ Inv Hpi Hl) as Inv'.
    pose proof (lheap_step k _ _ _ _ _ _ _ _ _ Inv Hh Hn Hpi Hl) as Hh'.
    split.
    + exists (tg ++ [e1]). rewrite Hproj. split; [done|].
      rewrite !count_snoc, Ca. split; [done|].
      rewrite !length_app, length_insert. rewrite crank_cget in Wr.
      simpl in *. lia.
    + by rewrite Hlog, Hproj.
    + intros Hc. rewrite Hlog. apply Hn.
      eapply lstep_cell_none; [done|apply Inv|done].
    + intros j phj Hj. destruct (decide (i = j)) as [<-|Hij].
      * rewrite list_lookup_insert_eq in Hj by done. injection Hj as <-.
        assert (lallowed k s1 ph1) as A1.
        { apply (linv_allowed _ _ _ _ Inv' i).
          apply list_lookup_insert_eq. by rewrite length_fmap. }
        destruct ph1 as [| | | | | | | | |v|e0]; try done.
        simpl in A1. destruct (lheap_cell _ _ _ _ Hh' v A1) as (o & l & -> & _).
        done.
      * rewrite list_lookup_insert_ne in Hj by done.
        pose proof (Hk j phj Hj) as Kj.
        destruct phj as [phj mj|oj [mj|mj lj|mj|mj ej]]; try done.
        simpl in *. unfold attribute in *.
        destruct (lstep_heap _ _ _ _ _ Hl Ai) as [-> | Hnone]; [done|].
        assert ((cproj <$> phs) !! j = Some (LDone (VObj oj))) as Hpj
          by (by rewrite list_lookup_fmap, Hj).
        pose proof (linv_allowed _ _ _ _ Inv _ _ Hpj) as Aj. simpl in Aj.
        congruence.
    + rewrite Hlog, Lg.
      by rewrite (omap_insert_none clogged phs i (CGet ph m) (cget ph1 m) Hi eq_refl
                    (clogged_cget ph1 m)).
    + rewrite list_fmap_insert, cmsg_cget.
      rewrite list_insert_id; [done|]. by rewrite list_lookup_fmap, Hi.
  - (* a step of [log] *)
    cbn [cstep] in Hs.
    destruct (pstep o ph s) as [[[ph1 s1] e1]|] eqn:Hp; [|done].
    injection Hs as <- <- <-. simpl in Hpi, Ai.
    destruct (lheap_cell _ _ _ _ Hh _ Ai) as (o' & l & [= <-] & _ & Ha & Hl).
    pose proof (pstep_envs _ _ _ _ _ _ Hp) as He.
    pose proof (pstep_allocates _ _ _ _ _ _ Hp) as Hal.
    assert (cell k Logger.__name__ s1 = cell k Logger.__name__ s) as Hc
      by (unfold cell; by rewrite He).
    assert (cproj <$> <[i := CLog o ph1]> phs = cproj <$> phs) as Hproj.
    { rewrite list_fmap_insert. by apply list_insert_id. }
    assert (objects (st_heap s1) = objects (st_heap s)) as Hobj.
    { destruct ph; simpl in Hp; try done; by injection Hp as _ <- _. }
    assert (forall j phj, phs !! j = Some phj ->
              lknows s1 (cproj phj) /\ cknows k s1 phj) as Hothers.
    { intros j phj Hj. pose proof (Hk j phj Hj) as Kj.
      assert ((cproj <$> phs) !! j = Some (cproj phj)) as Hpj
        by (by rewrite list_lookup_fmap, Hj).
      pose proof (linv_allowed _ _ _ _ Inv _ _ Hpj) as Aj.
      destruct phj as [phj mj|oj [mj|mj lj|mj|mj ej]]; simpl in *; try done.
      - split; [|done]. destruct phj; simpl in *; try done; congruence.
      - unfold attribute in *. by rewrite Hobj. }
    assert (logging k o l (logged (t ++ [e1])) s1
            /\ cknows k s1 (CLog o ph1)
            /\ plogged ph = None
            /\ logged (t ++ [e1]) ≡ₚ
               match plogged ph1 with Some v => [v] | None => [] end ++ logged t)
      as (Lg1 & K1 & Pl & Pm).
    { destruct ph as [m|m l'|m|m e0]; simpl in Hp; try done.
      - injection Hp as <- <- <-. rewrite Ha.
        rewrite logged_snoc. simpl. rewrite app_nil_r.
        split; [by repeat split|]. by repeat split.
      - injection Hp as <- <- <-. simpl in Ki. rewrite Ha in Ki.
        injection Ki as ->. rewrite logged_snoc. simpl.
        split; [|split; [done|split; [done|]]].
        + split; [done|]. split; [done|].
          unfold list_content in *. simpl. by rewrite list_lookup_alter_eq, Hl.
        + by rewrite <- Permutation_cons_append. }
    split.
    + exists tg. rewrite Hproj. split; [by eapply linv_envs|].
      rewrite count_snoc, Hal, Ca. split; [simpl; lia|].
      rewrite length_app, length_insert. simpl in *.
      assert (prank ph1 < prank ph).
      { destruct ph; simpl in Hp; try done; injection Hp as <- _ _; simpl; try lia.
        destruct (attribute o "logs" s) as [[]|]; simpl; lia. }
      lia.
    + rewrite Hproj. split.
      * intros v Hv. rewrite Hc, Ai in Hv. injection Hv as <-. by exists o, l.
      * intros j phj Hj. rewrite list_lookup_fmap in Hj.
        destruct (phs !! j) as [ph0|] eqn:Hj0; [|done]. injection Hj as <-.
        by apply (Hothers j ph0).
    + rewrite Hc, Ai. done.
    + intros j phj Hj. destruct (decide (i = j)) as [<-|Hij].
      * rewrite list_lookup_insert_eq in Hj by done. by injection Hj as <-.
      * rewrite list_lookup_insert_ne in Hj by done. by apply (Hothers j phj).
    + rewrite Pm. destruct (plogged ph1) as [v|] eqn:Pl1.
      * rewrite (omap_insert_some clogged phs i (CLog o ph) (CLog o ph1) v Hi Pl Pl1).
        simpl. by rewrite Lg.
      * rewrite (omap_insert_none clogged phs i (CLog o ph) (CLog o ph1) Hi Pl Pl1).
        by rewrite Lg.
    + rewrite list_fmap_insert. cbn [cmsg]. rewrite (pmsg_step _ _ _ _ _ _ Hp).
      rewrite list_insert_id; [done|]. by rewrite list_lookup_fmap, Hi.
Qed.
End LoggerClients.

Section LoggerClientsFacts.
Variable k : nat.

Lemma cinv_initial msgs s :
  cell k Logger.__name__ s = None ->
  lock_held (EnvLock k) s = false ->
  cinv k msgs (CGet LStart <$> msgs) s [].
Proof.
  intros C L.
  assert (forall ms : list value,
            cproj <$> (CGet LStart <$> ms) = replicate (length ms) LStart) as Hp.
  { intros ms. induction ms as [|m ms IH]; [done|]. rewrite !fmap_cons, IH. done. }
  assert (forall ms : list value,
            weight crank (CGet LStart <$> ms) = 2 * length ms) as Hw.
  { intros ms. induction ms as [|m ms IH]; [done|].
    change (2 + weight crank (CGet LStart <$> ms) = 2 * S (length ms)).
    rewrite IH. lia. }
  assert (forall ms : list value, omap clogged (CGet LStart <$> ms) = []) as Ho.
  { intros ms. induction ms as [|m ms IH]; [done|]. exact IH. }
  assert (forall ms : list value, cmsg <$> (CGet LStart <$> ms) = ms) as Hm.
  { intros ms. induction ms as [|m ms IH]; [done|]. rewrite !fmap_cons.
    by rewrite IH. }
  split.
  - exists []. rewrite Hp. split; [by apply linv_initial|]. split; [done|].
    rewrite Hw, length_fmap. simpl. lia.
  - rewrite Hp. split.
    + intros v Hv. congruence.
    + by intros j ph [-> _]%lookup_replicate.
  - done.
  - intros j ph Hj. rewrite list_lookup_fmap in Hj.
    destruct (msgs !! j); [|done]. by injection Hj as <-.
  - by rewrite Ho.
  - apply Hm.
Qed.

Lemma cfinished s ph :
  cknows k s ph -> finished (ccode k ph) = true ->
  exists o m, ph = CLog o (PDone m).
Proof.
  destruct ph as [ph m|o [m|m l|m|m e]]; simpl; try done; eauto.
  intros Hf. by destruct (lcode k ph).
Qed.

Lemma cstep_enabled s ph :
  cknows k s ph -> lallowed k s (cproj ph) ->
  finished (ccode k ph) = false ->
  lcrit (cproj ph) = 1 \/ lock_held (EnvLock k) s = false ->
  is_Some (cstep k ph s).
Proof.
  intros K A F W. destruct ph as [ph m|o ph].
  - simpl in K, A, W. rewrite cstep_get by done.
    assert (is_Some (lstep k ph s)) as [[[ph' s'] e] ->]; [|by eexists].
    destruct W as [W|W]; [by apply lcrit_enabled|].
    apply lstep_enabled; auto.
  - cbn [cstep]. assert (is_Some (pstep o ph s)) as [[[ph' s'] e] ->]; [|by eexists].
    destruct ph; simpl in *; try done; by eexists.
Qed.

(** What the invariant gives about a pool of clients. *)
Lemma cinv_facts msgs phs s t :
  cinv k msgs phs s t ->
  count (allocates Logger.__name__) t <= 1
  /\ length t <= 11 * length phs
  /\ (forall i p, (ccode k <$> phs) !! i = Some p -> finished p = true ->
        p = Ret VNone)
  /\ (completed (ccode k <$> phs) \/ exists l c, step (ccode k <$> phs, s) l c)
  /\ (completed (ccode k <$> phs) -> 0 < length phs ->
        count (allocates Logger.__name__) t = 1
        /\ exists o l ms, logging k o l ms s /\ ms ≡ₚ msgs).
Proof.
  intros [(tg & Inv & Ca & Rk) Hh Hn Hk Lg Hm].
  destruct (linv_facts k _ _ _ Inv) as (F1 & F2 & _ & _ & F5).
  rewrite length_fmap in F2.
  split; [lia|]. split; [lia|]. split; [|split].
  - intros i p Hi Hf. rewrite list_lookup_fmap in Hi.
    destruct (phs !! i) as [ph|] eqn:Hph; [|done]. injection Hi as <-.
    by destruct (cfinished s ph (Hk i ph Hph) Hf) as (o & m & ->).
  - assert (forall ph, {finished (ccode k ph) = true} + {finished (ccode k ph) = false})
      as dec by (intros ph; destruct (finished (ccode k ph)); auto).
    destruct (Forall_Exists_dec _ _ dec phs) as [Hall|Hex].
    { left. unfold completed. by rewrite Forall_fmap. }
    right. apply Exists_exists in Hex as (ph & Hin & Hf).
    apply list_elem_of_lookup in Hin as [i Hi].
    pose proof (linv_lock _ _ _ _ Inv) as W. rewrite weight_fmap in W.
    assert (exists j phj, phs !! j = Some phj
              /\ finished (ccode k phj) = false
              /\ (lcrit (cproj phj) = 1 \/ lock_held (EnvLock k) s = false))
      as (j & phj & Hj & Hfj & Hw).
    { destruct (lock_held (EnvLock k) s) eqn:Lk.
      - simpl in W.
        destruct (weight_positive (fun a => lcrit (cproj a)) phs)
          as (j & phj & Hj & Hp); [lia|].
        exists j, phj. split; [done|].
        assert (lcrit (cproj phj) = 1) as Hc
          by (destruct (cproj phj); simpl in *; lia).
        split; [|by left].
        destruct phj as [phj m|o phj]; [|done]. simpl in *.
        by destruct phj.
      - exists i, ph. split; [done|]. split; [done|]. by right. }
    destruct (cstep_enabled s phj (Hk j phj Hj)) as [[[ph' s'] e] Hs];
      [|done|done|].
    { apply (linv_allowed _ _ _ _ Inv j). by rewrite list_lookup_fmap, Hj. }
    by eapply (step_exists (ccode k) (cstep k) (ccode_step k)).
  - intros Hall Hpos. unfold completed in Hall. rewrite Forall_fmap in Hall.
    assert (Forall (fun ph => exists o m, ph = CLog o (PDone m)) phs) as Hdone.
    { apply Forall_lookup_2. intros j ph Hj.
      apply (cfinished s ph (Hk j ph Hj)).
      by apply (Forall_lookup_1 _ _ _ _ Hall Hj). }
    split.
    + rewrite Ca. apply F5; [|by rewrite length_fmap].
      unfold completed. rewrite !Forall_fmap.
      eapply Forall_impl; [exact Hdone|]. by intros ph (o & m & ->).
    + assert (omap clogged phs = cmsg <$> phs) as Heq.
      { clear -Hdone.
        induction Hdone as [|ph0 phs0 (o & m & ->) _ IH]; [done|].
        rewrite fmap_cons, <- IH. done. }
      destruct phs as [|ph phs]; [simpl in Hpos; lia|].
      pose proof (Forall_inv Hdone) as (o & m & ->).
      pose proof (linv_allowed _ _ _ _ Inv 0 (LDone (VObj o)) eq_refl) as A.
      simpl in A.
      destruct (lheap_cell _ _ _ _ Hh _ A) as (o' & l & _ & Lgg).
      exists o', l, (logged t). split; [done|]. by rewrite Lg, Heq, Hm.
Qed.
End LoggerClientsFacts.

Lemma racing_clients k msgs s ts s' tr :
  cell k Logger.__name__ s = None ->
  lock_held (EnvLock k) s = false ->
  steps (logger_client k <$> msgs, s) tr (ts, s') ->
  count (allocates Logger.__name__) tr.*2 <= 1
  /\ length tr <= 11 * length msgs
  /\ (forall i p, ts !! i = Some p -> finished p = true -> p = Ret VNone)
  /\ (completed ts \/ exists l c, step (ts, s') l c)
  /\ (completed ts -> 0 < length msgs ->
        count (allocates Logger.__name__) tr.*2 = 1
        /\ exists o l ms, logging k o l ms s' /\ ms ≡ₚ msgs).
Proof.
  intros C L Hsteps.
  destruct (steps_invariant (ccode k) (cstep k) (ccode_step k) (cinv k msgs)
              (cinv_step k msgs) _ _ _ Hsteps (CGet LStart <$> msgs) [])
    as (phs & E & Len & Inv); cbn [fst snd app] in *; [| |subst ts].
  { by rewrite <- list_fmap_compose. }
  { by apply cinv_initial. }
  rewrite length_fmap in Len. rewrite <- Len.
  rewrite <- (length_fmap snd tr). by apply cinv_facts.
Qed.

(** X12. Threads race to run [Logger().log(m)], each with its own message,
    from an empty cell. In every execution, whatever the interleaving:
    one logger at most is allocated; no thread raises; an execution has at
    most eleven actions per thread, and can be continued until all
    threads have returned; and when all have returned one logger was
    allocated, it is in the cell, and its list holds the messages of the
    threads, each once, in some order. *)
Theorem racing_logger_clients
    (k : nat) (msgs : list value)
    (s s' : state) (ts : list (prog op value)) (tr : list (nat * event)) :
  cell k Logger.__name__ s = None ->
  lock_held (EnvLock k) s = false ->
  steps (logger_client k <$> msgs, s) tr (ts, s') ->
  count (allocates Logger.__name__) tr.*2 <= 1
  /\ length tr <= 11 * length msgs
  /\ (forall i p, ts !! i = Some p -> finished p = true -> p = Ret VNone)
  /\ (exists tr' ts'' s'', steps (ts, s') tr' (ts'', s'') /\ completed ts'')
  /\ (completed ts -> 0 < length msgs ->
        count (allocates Logger.__name__) tr.*2 = 1
        /\ exists o l ms, logging k o l ms s' /\ ms ≡ₚ msgs).
Proof.
  intros C L Hsteps.
  destruct (racing_clients k msgs s ts s' tr C L Hsteps)
    as (F1 & F2 & F3 & F4 & F5).
  split; [done|]. split; [done|]. split; [done|]. split; [|done].
  destruct (steps_complete (logger_client k <$> msgs, s) (11 * length msgs))
    with (tr := tr) (c' := (ts, s'))
    as (tr' & [ts'' s''] & Hrest & Hc); [|done|by exists tr', ts'', s''].
  intros tr0 [ts0 s0] H0.
  destruct (racing_clients k msgs s ts0 s0 tr0 C L H0) as (_ & G2 & _ & G4 & _).
  done.
Qed.

Lemma racing_logger_clients_witness :
  exists ts s' tr,
    schedule [0; 1; 0; 0; 0; 0; 0; 0; 0; 0; 1; 1; 1; 1; 1; 0; 1; 0]
      (logger_client 0 <$> [VStr "first"; VStr "second"]) loaded_state
    = Some (ts, s', tr)
    /\ ts = [Ret VNone; Ret VNone]
    /\ list_content 0 s' = Some [VStr "second"; VStr "first"]
    /\ count (allocates Logger.__name__) tr.*2 = 1.
Proof.
  destruct (schedule [0; 1; 0; 0; 0; 0; 0; 0; 0; 0; 1; 1; 1; 1; 1; 0; 1; 0]
              (logger_client 0 <$> [VStr "first"; VStr "second"]) loaded_state)
    as [[[ts s'] tr]|] eqn:E; [|by vm_compute in E].
  apply schedule_steps in E as Hsteps.
  assert (ts = [Ret VNone; Ret VNone]) as Hts.
  { vm_compute in E. by injection E as <- _ _. }
  assert (list_content 0 s' = Some [VStr "second"; VStr "first"]) as Hl.
  { vm_compute in E. by injection E as _ <- _. }
  destruct (racing_logger_clients 0 [VStr "first"; VStr "second"]
              loaded_state s' ts tr eq_refl eq_refl Hsteps)
    as (_ & _ & _ & _ & F5).
  exists ts, s', tr. split; [reflexivity|]. split; [exact Hts|].
  split; [exact Hl|]. apply F5; [|simpl; lia].
  rewrite Hts. repeat constructor.
Defined.
